(** * tmdb-proxy: the cache-and-coalescing request manager

    A shallow embedding of [src/api/tmdb.js], which holds the request manager
    twice:

    - second part: [class RequestManager] with the options [duration] and
      [maxSize] ([fetch], [_getFromDataCache], [_setToDataCache]), and its
      handler;
    - first part: the same class with the two options fixed to the constants
      [CACHE_DURATION] and [MAX_CACHE_SIZE], and its handler.

    [src/unnamed/part_000] holds an earlier cache, two functions on a
    module-level [Map].  Three tokens of that file are not JavaScript (see
    [setCache] below), so as it is stored it does not load and nothing here is
    a statement about what it runs; its text is read for the step that
    [_setToDataCache] has lost.

    A JavaScript [Map] iterates in insertion order, and the code relies on it:
    the data cache is an association list, oldest entry first.  The registry of
    pending requests is only ever looked up by key, it is a [gmap].
    [Date.now()] is an explicit argument of every operation that reads it. *)

From stdpp Require Import base list strings gmap pretty.
From Stdlib Require Import ZArith.

#[local] Set Warnings "-register-all".

(** ** Values *)

(** What [response.json()] resolves with.  The cache only ever asks whether a
    value is truthy; of a number that is whether it is zero, so numbers are
    kept as integers. *)
Inductive JSON : Type :=
  | JNull
  | JBool (b : bool)
  | JNum (n : Z)
  | JStr (s : string)
  | JArr (items : list JSON)
  | JObj (fields : list (string * JSON)).

(** JavaScript's ToBoolean on these values: [if (cached)]. *)
Definition truthy (v : JSON) : bool :=
  match v with
  | JNull => false
  | JBool b => b
  | JNum n => negb (n =? 0)%Z
  | JStr s => negb (String.eqb s "")
  | JArr _ => true
  | JObj _ => true
  end.

(** A cache entry, [{ data, expiry }]. *)
Record Item : Type := mkItem { data : JSON; expiry : Z }.

(** ** The insertion-ordered [Map] *)

Section JsMap.
Context {V : Type}.

Definition Map_keys (m : list (string * V)) : list string := m.*1.

(** [m.get(k)]; [None] is [undefined]. *)
Fixpoint Map_get (k : string) (m : list (string * V)) : option V :=
  match m with
  | [] => None
  | (k', v) :: m' => if decide (k' = k) then Some v else Map_get k m'
  end.

(** [m.has(k)] *)
Definition Map_has (k : string) (m : list (string * V)) : bool :=
  match Map_get k m with Some _ => true | None => false end.

(** [m.delete(k)]: the entry leaves, the others keep their order. *)
Fixpoint Map_delete (k : string) (m : list (string * V)) : list (string * V) :=
  match m with
  | [] => []
  | (k', v) :: m' => if decide (k' = k) then m' else (k', v) :: Map_delete k m'
  end.

(** [m.set(k, v)]: a key that is present keeps its position and only its
    value changes; a new key goes to the end. *)
Fixpoint Map_set (k : string) (v : V) (m : list (string * V)) : list (string * V) :=
  match m with
  | [] => [(k, v)]
  | (k', v') :: m' => if decide (k' = k) then (k, v) :: m' else (k', v') :: Map_set k v m'
  end.

(** [m.size] *)
Definition Map_size (m : list (string * V)) : nat := length m.

(** [m.keys().next().value]; [None] is the [undefined] of an empty map. *)
Definition Map_first_key (m : list (string * V)) : option string :=
  match m with
  | [] => None
  | (k, _) :: _ => Some k
  end.

(** [m.delete(m.keys().next().value)]: no key is [undefined], so on an empty
    map nothing is deleted. *)
Definition Map_delete_first (m : list (string * V)) : list (string * V) :=
  match Map_first_key m with
  | Some k => Map_delete k m
  | None => m
  end.

(** The representation invariant of a [Map]: one entry per key. *)
Definition Map_wf (m : list (string * V)) : Prop := NoDup (Map_keys m).
End JsMap.

(** ** The cache as functions of the map *)

(** The constants of [tmdb.js], lines 8 and 9. *)
Definition CACHE_DURATION : Z := 10 * 60 * 1000.
Definition MAX_CACHE_SIZE : nat := 1000.

(** The text of [setCache] in [part_000], lines 14 to 30, with its three
    foreign tokens put back into JavaScript: line 22 reads
    [cache.keys().下一处()。value], taken as [cache.keys().next().value], and
    line 28 reads [Date.当前()], taken as [Date.now()].  As stored, line 22 is
    a syntax error and the file does not load; this definition is therefore
    not what [part_000] runs.  It is the write with the step of lines 16 to
    18, [if (cache.has(key)) cache.delete(key)], which [_setToDataCache]
    lacks, and serves only as the comparison for that step. *)
Definition setCache (now : Z) (key : string) (data : JSON)
    (cache : list (string * Item)) : list (string * Item) :=
  let cache1 := if Map_has key cache then Map_delete key cache else cache in
  let cache2 :=
    if (MAX_CACHE_SIZE <=? Map_size cache1)%nat then Map_delete_first cache1 else cache1 in
  Map_set key (mkItem data (now + CACHE_DURATION)) cache2.

(** The body of [_getFromDataCache] ([tmdb.js], lines 38 to 49 and 205 to
    218) as a function of [this.dataCache]: what the method returns, [JNull]
    being JavaScript's [null], together with the map it leaves behind.
    [getCache] of [part_000], lines 36 to 52, has the same text with
    [Date.当前()] where this has [Date.now()]. *)
Definition getCache (now : Z) (key : string)
    (cache : list (string * Item)) : JSON * list (string * Item) :=
  match Map_get key cache with
  | None => (JNull, cache)
  | Some item =>
      if (expiry item <? now)%Z
      then (JNull, Map_delete key cache)
      else (data item, Map_set key item (Map_delete key cache))
  end.

(** ** [src/api/tmdb.js]: [class RequestManager] *)

(** A promise is known by its identity. *)
Abbreviation Promise := nat (only parsing).

(** How a producer's promise settles; an [Error] carries its message. *)
Inductive Outcome : Type :=
  | Resolved (data : JSON)
  | Rejected (message : string).

Record Options : Type := mkOptions {
  duration : option Z;
  maxSizeOption : option nat
}.

Record RequestManager : Type := mkRequestManager {
  cacheDuration : Z;
  maxSize : nat;
  dataCache : list (string * Item);
  pendingRequests : gmap string Promise
}.

(** [options.duration || 10 * 60 * 1000] and [options.maxSize || 1000]:
    a missing option and a zero both fall back to the default. *)
Definition new_RequestManager (options : Options) : RequestManager :=
  {| cacheDuration :=
       match duration options with
       | Some d => if (d =? 0)%Z then 10 * 60 * 1000 else d
       | None => 10 * 60 * 1000
       end;
     maxSize :=
       match maxSizeOption options with
       | Some n => if (n =? 0)%nat then 1000 else n
       | None => 1000
       end;
     dataCache := [];
     pendingRequests := ∅ |}.

Definition set_dataCache (c : list (string * Item)) (this : RequestManager) : RequestManager :=
  {| cacheDuration := cacheDuration this; maxSize := maxSize this;
     dataCache := c; pendingRequests := pendingRequests this |}.

Definition set_pendingRequests (p : gmap string Promise) (this : RequestManager) : RequestManager :=
  {| cacheDuration := cacheDuration this; maxSize := maxSize this;
     dataCache := dataCache this; pendingRequests := p |}.

Definition _getFromDataCache (now : Z) (key : string)
    (this : RequestManager) : JSON * RequestManager :=
  match Map_get key (dataCache this) with
  | None => (JNull, this)
  | Some item =>
      if (expiry item <? now)%Z
      then (JNull, set_dataCache (Map_delete key (dataCache this)) this)
      else (data item,
            set_dataCache (Map_set key item (Map_delete key (dataCache this))) this)
  end.

Definition _setToDataCache (now : Z) (key : string) (data : JSON)
    (this : RequestManager) : RequestManager :=
  let cache1 :=
    if (maxSize this <=? Map_size (dataCache this))%nat
    then Map_delete_first (dataCache this)
    else dataCache this in
  set_dataCache (Map_set key (mkItem data (now + cacheDuration this)) cache1) this.

(** ** Promises and the event loop

    [fetch] has no [await]: its body runs from the cache lookup to the
    registration of the pending promise without a suspension point.  The
    producer's promise settles later, in a task of its own, and the [then] and
    [finally] callbacks chained on it run in the microtasks of that task,
    before any other request is handled.  So the program advances in two kinds
    of atomic steps: a call of [fetch], and the settlement of a producer's
    promise together with its two callbacks.  The producer itself is the
    caller's function: the ones the handlers pass build a request and await
    the network, they do not call back into the manager. *)

(** The manager together with what the JavaScript runtime holds for it. *)
Record Runtime : Type := mkRuntime {
  manager : RequestManager;
  (** the producers' promises that have not settled, each with the [key] its
      callbacks close over *)
  inflight : gmap Promise string;
  (** the promises that have settled, and how *)
  settled : gmap Promise Outcome;
  (** the identity of the next promise to be created *)
  fresh : Promise;
  (** every invocation [fetcherFn()], by key, latest first *)
  invocations : list string
}.

Definition boot (options : Options) : Runtime :=
  {| manager := new_RequestManager options; inflight := ∅; settled := ∅;
     fresh := 0; invocations := [] |}.

(** What the promise returned by [fetch] is resolved with: a cached value, or
    the pending promise it then follows. *)
Inductive FetchResult : Type :=
  | Cached (value : JSON)
  | Pending (promise : Promise).

Definition fetch (now : Z) (key : string) (rt : Runtime) : FetchResult * Runtime :=
  let '(cached, this) := _getFromDataCache now key (manager rt) in
  if truthy cached then
    (Cached cached,
     {| manager := this; inflight := inflight rt; settled := settled rt;
        fresh := fresh rt; invocations := invocations rt |})
  else
    match pendingRequests this !! key with
    | Some promise =>
        (Pending promise,
         {| manager := this; inflight := inflight rt; settled := settled rt;
            fresh := fresh rt; invocations := invocations rt |})
    | None =>
        let promise := fresh rt in
        (Pending promise,
         {| manager := set_pendingRequests (<[key := promise]> (pendingRequests this)) this;
            inflight := <[promise := key]> (inflight rt);
            settled := settled rt;
            fresh := S promise;
            invocations := key :: invocations rt |})
    end.

(** The producer's promise [promise] settles with [outcome]:
    [.then(data => { this._setToDataCache(key, data); return data; })] runs
    when the promise is fulfilled and is skipped when it is rejected,
    [.finally(() => this.pendingRequests.delete(key))] runs in both cases, and
    the chained promise settles the way the producer's did.  The second part
    of [tmdb.js] also chains [.catch((err) => { throw err; })], which passes
    the rejection on as it is.  A promise that is not in flight has no
    callbacks left to run. *)
Definition settle (now : Z) (promise : Promise) (outcome : Outcome)
    (rt : Runtime) : Runtime :=
  match inflight rt !! promise with
  | None => rt
  | Some key =>
      let this1 :=
        match outcome with
        | Resolved data => _setToDataCache now key data (manager rt)
        | Rejected _ => manager rt
        end in
      {| manager := set_pendingRequests (delete key (pendingRequests this1)) this1;
         inflight := delete promise (inflight rt);
         settled := <[promise := outcome]> (settled rt);
         fresh := fresh rt;
         invocations := invocations rt |}
  end.

(** The steps of the event loop, each at its own [Date.now()]. *)
Inductive Event : Type :=
  | CallFetch (now : Z) (key : string)
  | Settle (now : Z) (promise : Promise) (outcome : Outcome).

(** One step; a call of [fetch] also yields what the caller got. *)
Definition step (rt : Runtime) (e : Event) : option (string * FetchResult) * Runtime :=
  match e with
  | CallFetch now key => let '(r, rt') := fetch now key rt in (Some (key, r), rt')
  | Settle now promise outcome => (None, settle now promise outcome rt)
  end.

(** A run of the loop: the answers to the calls of [fetch], in order, and the
    final state. *)
Fixpoint run (rt : Runtime) (es : list Event) : list (string * FetchResult) * Runtime :=
  match es with
  | [] => ([], rt)
  | e :: es' =>
      let '(r, rt1) := step rt e in
      let '(rs, rt2) := run rt1 es' in
      (match r with Some a => a :: rs | None => rs end, rt2)
  end.

(** How often the producer was invoked for [key]. *)
Definition invoked (key : string) (rt : Runtime) : nat :=
  length (filter (λ k, k = key) (invocations rt)).

(** What a caller that was handed [r] ends up with, once known. *)
Definition received (r : FetchResult) (rt : Runtime) : option Outcome :=
  match r with
  | Cached v => Some (Resolved v)
  | Pending p => settled rt !! p
  end.

(** [e] is the settlement of the promise [p]. *)
Definition settles (p : Promise) (e : Event) : bool :=
  match e with
  | Settle _ q _ => bool_decide (q = p)
  | CallFetch _ _ => false
  end.

(** The runtime with another registry. *)
Definition with_registry (registry : gmap string Promise) (rt : Runtime) : Runtime :=
  mkRuntime (set_pendingRequests registry (manager rt))
            (inflight rt) (settled rt) (fresh rt) (invocations rt).

(** A sequence of writes [(now, key, data)], in order. *)
Definition insert_all (this : RequestManager)
    (inserts : list (Z * string * JSON)) : RequestManager :=
  foldl (λ this i, _setToDataCache i.1.1 i.1.2 i.2 this) this inserts.

Definition inserted_keys (inserts : list (Z * string * JSON)) : list string :=
  (λ i, i.1.2) <$> inserts.

(** The scenario of the specification: capacity 2, a duration of 1000 ms. *)
Definition scenario : list Event :=
  [ CallFetch 0 "a"; Settle 10 0 (Resolved (JNum 1));
    CallFetch 20 "b"; Settle 30 1 (Resolved (JNum 2));
    CallFetch 40 "a";
    CallFetch 50 "c"; Settle 60 2 (Resolved (JNum 3)) ].

(** ** The invariant of the event loop *)

Record Inv (rt : Runtime) : Prop := mkInv {
  (** the data cache is a [Map], within its capacity *)
  inv_wf : Map_wf (dataCache (manager rt));
  inv_capacity : 1 ≤ maxSize (manager rt);
  inv_size : Map_size (dataCache (manager rt)) ≤ maxSize (manager rt);
  (** the registry holds exactly the promises in flight, under their keys *)
  inv_pending :
    ∀ k p, pendingRequests (manager rt) !! k = Some p ↔ inflight rt !! p = Some k;
  (** promises are created in order, and a settled one is no longer in flight *)
  inv_fresh : ∀ p k, inflight rt !! p = Some k → p < fresh rt;
  inv_settled : ∀ p o, settled rt !! p = Some o → p < fresh rt ∧ inflight rt !! p = None;
  (** while a key is pending, the cache has nothing for it that [fetch] would
      return *)
  inv_falsy :
    ∀ k p item, pendingRequests (manager rt) !! k = Some p →
      Map_get k (dataCache (manager rt)) = Some item → truthy (data item) = false
}.

(** ** The request handlers

    Each part of [tmdb.js] exports one handler, [module.exports = async (req,
    res) => ...].  A handler runs up to its first [await], and goes on when
    what it awaits has settled; the two parts are separate steps of the event
    loop. *)

(** What a handler reads of [req]: [req.method], [req.url] and
    [req.headers.authorization] ([None] when the header is missing). *)
Record Request : Type := mkRequest {
  method : string;
  url : string;
  authorization : option string
}.

(** How a handler finishes the response. *)
Inductive Body : Type :=
  | NoBody                      (** [.end()] *)
  | SendJSON (value : JSON)     (** [.send(JSON.stringify(value))] *)
  | Json (value : JSON).        (** [.json(value)] *)

(** What a handler does to [res]: the status, the calls of [res.setHeader] in
    order, and the body. *)
Record Response : Type := mkResponse {
  statusCode : nat;
  responseHeaders : list (string * string);
  responseBody : Body
}.

(** What the upstream [fetch(url, { headers })] comes to: it rejects, or it
    yields a response with [response.status] and [response.statusText], of
    which [await response.text()] and [await response.json()] each give a
    value or reject with an error ([inr], with the error's message). *)
Inductive Upstream : Type :=
  | FetchFailed (message : string)
  | Replied (status : nat) (statusText : string)
            (text : string + string) (json : JSON + string).

(** [response.ok]: a status from 200 to 299. *)
Definition ok (status : nat) : bool := (200 <=? status) && (status <=? 299).

(** [s.includes(sub)] *)
Fixpoint includes (s sub : string) : bool :=
  String.prefix sub s ||
  match s with
  | EmptyString => false
  | String _ s' => includes s' sub
  end.

Definition application_json : string * string := ("Content-Type", "application/json").

(** *** [src/api/tmdb.js], second part *)

Definition TMDB_cors : list (string * string) :=
  [ ("Access-Control-Allow-Origin", "*");
    ("Access-Control-Allow-Methods", "GET, POST, OPTIONS");
    ("Access-Control-Allow-Headers", "Content-Type, Authorization") ].

(** The producer the handler passes to [manager.fetch]: how its promise
    settles, given what the upstream call comes to. *)
Definition performNetworkRequest (up : Upstream) : Outcome :=
  match up with
  | FetchFailed message => Rejected message
  | Replied status statusText text json =>
      if ok status then
        match json with
        | inl data => Resolved data
        | inr message => Rejected message
        end
      else
        match text with
        | inl errorText =>
            Rejected ("TMDB API Error " +:+ pretty status +:+ ": " +:+ errorText)
        | inr message => Rejected message
        end
  end.

(** The handler up to [await manager.fetch(cacheKey, performNetworkRequest)]:
    the response to [OPTIONS], or what [manager.fetch] returned. *)
Definition TMDB_start (now : Z) (req : Request) (rt : Runtime)
    : (Response + FetchResult) * Runtime :=
  if decide (method req = "OPTIONS") then (inl (mkResponse 200 TMDB_cors NoBody), rt)
  else let '(r, rt1) := fetch now (url req) rt in (inr r, rt1).

(** The handler once the promise it awaits has settled. *)
Definition TMDB_finish (outcome : Outcome) : Response :=
  match outcome with
  | Resolved data => mkResponse 200 (TMDB_cors ++ [application_json]) (SendJSON data)
  | Rejected message =>
      mkResponse (if includes message "TMDB API Error" then 502 else 500) TMDB_cors
        (Json (JObj [("error", JStr message)]))
  end.

(** *** [src/api/tmdb.js], first part: the branch of the API requests *)

Definition proxy_cors : list (string * string) :=
  [ ("Access-Control-Allow-Origin", "*");
    ("Access-Control-Allow-Methods", "GET, OPTIONS");
    ("Access-Control-Allow-Headers", "Content-Type, Authorization") ].

(** The producer of this handler; [txt || response.statusText] is the status
    text when the body is empty. *)
Definition proxy_fetcher (up : Upstream) : Outcome :=
  match up with
  | FetchFailed message => Rejected message
  | Replied status statusText text json =>
      if ok status then
        match json with
        | inl data => Resolved data
        | inr message => Rejected message
        end
      else
        match text with
        | inl txt => Rejected (if String.eqb txt "" then statusText else txt)
        | inr message => Rejected message
        end
  end.

Definition proxy_finish (outcome : Outcome) : Response :=
  match outcome with
  | Resolved apiData => mkResponse 200 (proxy_cors ++ [application_json]) (SendJSON apiData)
  | Rejected message =>
      mkResponse 500 proxy_cors
        (Json (JObj [("error", JStr "Proxy Error"); ("details", JStr message)]))
  end.

(** The calls of [fetch] for [key] among the events. *)
Definition is_call (key : string) (e : Event) : bool :=
  match e with
  | CallFetch _ k => bool_decide (k = key)
  | Settle _ _ _ => false
  end.

Definition calls (key : string) (es : list Event) : nat :=
  length (filter (λ e, is_call key e = true) es).

(** The bookkeeping of the promises: one promise per invocation of the
    producer, in order, so that the promise [p] belongs to the key of the
    [p]-th invocation; and every promise created is in flight or settled. *)
Record Ledger (rt : Runtime) : Prop := mkLedger {
  ledger_fresh : length (invocations rt) = fresh rt;
  ledger_inflight :
    ∀ p k, inflight rt !! p = Some k → rev (invocations rt) !! p = Some k;
  ledger_all :
    ∀ p, p < fresh rt → is_Some (inflight rt !! p) ∨ is_Some (settled rt !! p)
}.

(** * Properties *)

(** ** The insertion-ordered [Map] *)

Section JsMap_facts.
Context {V : Type}.
Implicit Types (m : list (string * V)) (k : string) (v : V).

Lemma Map_get_None k m : Map_get k m = None ↔ k ∉ Map_keys m.
Proof.
  induction m as [|[k' v'] m IH]; simpl.
  - split; [intros _; apply not_elem_of_nil | done].
  - rewrite not_elem_of_cons. destruct (decide (k' = k)) as [->|Hne].
    + split; [done | intros [? _]; done].
    + rewrite IH. split; [intros ?; split; [congruence | done] | intros [_ ?]; done].
Qed.

Lemma Map_get_Some_keys k m v : Map_get k m = Some v → k ∈ Map_keys m.
Proof.
  intros H. destruct (decide (k ∈ Map_keys m)) as [|Hn]; [done|].
  apply Map_get_None in Hn. congruence.
Qed.

Lemma Map_get_set k' k v m :
  Map_get k' (Map_set k v m) = if decide (k = k') then Some v else Map_get k' m.
Proof.
  induction m as [|[k0 v0] m IH]; simpl.
  - destruct (decide (k = k')); done.
  - destruct (decide (k0 = k)) as [->|Hne]; simpl.
    + destruct (decide (k = k')); done.
    + destruct (decide (k0 = k')) as [->|Hne'].
      * destruct (decide (k = k')); [congruence | done].
      * apply IH.
Qed.

Lemma Map_get_delete_ne k' k m : k' ≠ k → Map_get k' (Map_delete k m) = Map_get k' m.
Proof.
  intros Hne. induction m as [|[k0 v0] m IH]; simpl; [done|].
  destruct (decide (k0 = k)) as [->|Hne0]; simpl.
  - destruct (decide (k = k')); [congruence | done].
  - destruct (decide (k0 = k')); [done | apply IH].
Qed.

Lemma Map_keys_delete_subseteq k m : Map_keys (Map_delete k m) ⊆ Map_keys m.
Proof.
  induction m as [|[k0 v0] m IH]; simpl; [done|].
  destruct (decide (k0 = k)); simpl.
  - intros x Hx. apply elem_of_cons. by right.
  - intros x. rewrite !elem_of_cons. intros [->|Hx]; [by left | right; by apply IH].
Qed.

Lemma Map_wf_delete k m : Map_wf m → Map_wf (Map_delete k m).
Proof.
  unfold Map_wf. induction m as [|[k0 v0] m IH]; simpl; [done|].
  rewrite NoDup_cons. intros [Hnotin Hnd].
  destruct (decide (k0 = k)); simpl; [done|].
  apply NoDup_cons. split; [|by apply IH].
  intros Hin. apply Hnotin. by apply (Map_keys_delete_subseteq k m).
Qed.

Lemma Map_get_delete_eq k m : Map_wf m → Map_get k (Map_delete k m) = None.
Proof.
  unfold Map_wf. induction m as [|[k0 v0] m IH]; simpl; [done|].
  rewrite NoDup_cons. intros [Hnotin Hnd].
  destruct (decide (k0 = k)) as [->|Hne]; simpl.
  - by apply Map_get_None.
  - destruct (decide (k0 = k)); [done | by apply IH].
Qed.

Lemma Map_delete_absent k m : Map_get k m = None → Map_delete k m = m.
Proof.
  induction m as [|[k0 v0] m IH]; simpl; [done|].
  destruct (decide (k0 = k)); [done|]. intros H. by rewrite IH.
Qed.

Lemma Map_size_delete k m v :
  Map_get k m = Some v → S (Map_size (Map_delete k m)) = Map_size m.
Proof.
  unfold Map_size. induction m as [|[k0 v0] m IH]; simpl; [done|].
  destruct (decide (k0 = k)); simpl; [done|]. intros H. by rewrite IH.
Qed.

Lemma Map_size_delete_le k m : Map_size (Map_delete k m) ≤ Map_size m.
Proof.
  destruct (Map_get k m) as [v|] eqn:H.
  - apply Map_size_delete in H. lia.
  - by rewrite Map_delete_absent.
Qed.

(** A new key goes to the end. *)
Lemma Map_set_absent k v m : Map_get k m = None → Map_set k v m = m ++ [(k, v)].
Proof.
  induction m as [|[k0 v0] m IH]; simpl; [done|].
  destruct (decide (k0 = k)); [done|]. intros H. by rewrite IH.
Qed.

(** A key that is present keeps its place. *)
Lemma Map_keys_set_present k v m v0 :
  Map_get k m = Some v0 → Map_keys (Map_set k v m) = Map_keys m.
Proof.
  unfold Map_keys. induction m as [|[k1 v1] m IH]; simpl; [done|].
  destruct (decide (k1 = k)) as [->|Hne]; simpl; [done|].
  intros H. f_equal. by apply IH.
Qed.

Lemma Map_size_set_present k v m v0 :
  Map_get k m = Some v0 → Map_size (Map_set k v m) = Map_size m.
Proof.
  intros H. unfold Map_size.
  rewrite <-(length_fmap fst (Map_set k v m)), <-(length_fmap fst m).
  f_equal. by eapply Map_keys_set_present.
Qed.

Lemma Map_size_set_le k v m : Map_size (Map_set k v m) ≤ S (Map_size m).
Proof.
  destruct (Map_get k m) as [v0|] eqn:H.
  - erewrite Map_size_set_present by done. lia.
  - rewrite Map_set_absent by done. unfold Map_size. rewrite length_app. simpl. lia.
Qed.

Lemma Map_wf_set k v m : Map_wf m → Map_wf (Map_set k v m).
Proof.
  intros Hwf. unfold Map_wf. destruct (Map_get k m) as [v0|] eqn:H.
  - by erewrite Map_keys_set_present.
  - rewrite Map_set_absent by done. unfold Map_keys. rewrite fmap_app. simpl.
    apply NoDup_app. split; [done|]. split; [|apply NoDup_singleton].
    intros x Hx Hx'. apply list_elem_of_singleton in Hx'. subst x.
    by apply Map_get_None in H.
Qed.

(** Deleting never brings an entry in. *)
Lemma Map_get_delete_Some k' k m v :
  Map_wf m → Map_get k' (Map_delete k m) = Some v → Map_get k' m = Some v.
Proof.
  intros Hwf. destruct (decide (k' = k)) as [->|Hne].
  - by rewrite Map_get_delete_eq.
  - by rewrite Map_get_delete_ne.
Qed.

Lemma Map_wf_delete_first m : Map_wf m → Map_wf (Map_delete_first m).
Proof.
  unfold Map_delete_first. destruct (Map_first_key m); [apply Map_wf_delete | done].
Qed.

Lemma Map_get_delete_first_Some k m v :
  Map_wf m → Map_get k (Map_delete_first m) = Some v → Map_get k m = Some v.
Proof.
  unfold Map_delete_first. destruct (Map_first_key m); [apply Map_get_delete_Some | done].
Qed.

Lemma Map_delete_first_cons k v m : Map_delete_first ((k, v) :: m) = m.
Proof. unfold Map_delete_first. simpl. by destruct (decide (k = k)). Qed.

Lemma Map_size_delete_first m :
  m ≠ [] → S (Map_size (Map_delete_first m)) = Map_size m.
Proof. destruct m as [|[k v] m]; [done|]. intros _. by rewrite Map_delete_first_cons. Qed.

Lemma Map_size_delete_first_le m : Map_size (Map_delete_first m) ≤ Map_size m.
Proof.
  destruct m as [|[k v] m]; [done|]. rewrite Map_delete_first_cons. simpl. lia.
Qed.
End JsMap_facts.

(** ** Reading and writing the data cache *)

Section cache_facts.
Implicit Types (cache : list (string * Item)) (this : RequestManager).

Lemma set_dataCache_id this : set_dataCache (dataCache this) this = this.
Proof. by destruct this. Qed.

(** The method of the class is [getCache] on [this.dataCache]. *)
Lemma _getFromDataCache_getCache now key this :
  _getFromDataCache now key this =
    ((getCache now key (dataCache this)).1,
     set_dataCache (getCache now key (dataCache this)).2 this).
Proof.
  unfold _getFromDataCache, getCache.
  destruct (Map_get key (dataCache this)) as [item|]; simpl.
  - by destruct (expiry item <? now)%Z.
  - by rewrite set_dataCache_id.
Qed.

Lemma getCache_wf now key cache : Map_wf cache → Map_wf (getCache now key cache).2.
Proof.
  intros Hwf. unfold getCache. destruct (Map_get key cache) as [item|]; [|done].
  destruct (expiry item <? now)%Z; simpl.
  - by apply Map_wf_delete.
  - by apply Map_wf_set, Map_wf_delete.
Qed.

(** A read that hits moves the entry to the end and changes nothing else. *)
Lemma getCache_hit now key cache item :
  Map_wf cache → Map_get key cache = Some item → (now ≤ expiry item)%Z →
  getCache now key cache = (data item, Map_delete key cache ++ [(key, item)]).
Proof.
  intros Hwf Hget Hnow. unfold getCache. rewrite Hget.
  destruct (Z.ltb_spec (expiry item) now) as [?|_]; [lia|].
  by rewrite Map_set_absent by by apply Map_get_delete_eq.
Qed.

Lemma getCache_expired now key cache item :
  Map_get key cache = Some item → (expiry item < now)%Z →
  getCache now key cache = (JNull, Map_delete key cache).
Proof.
  intros Hget Hnow. unfold getCache. rewrite Hget.
  by destruct (Z.ltb_spec (expiry item) now) as [_|?]; [|lia].
Qed.

Lemma getCache_size now key cache :
  Map_wf cache → Map_size (getCache now key cache).2 ≤ Map_size cache.
Proof.
  intros Hwf. unfold getCache. destruct (Map_get key cache) as [item|] eqn:Hget; [|done].
  destruct (expiry item <? now)%Z; simpl.
  - apply Map_size_delete_le.
  - rewrite Map_set_absent by by apply Map_get_delete_eq.
    unfold Map_size. rewrite length_app. simpl.
    apply Map_size_delete in Hget. unfold Map_size in Hget. lia.
Qed.

(** A read never changes what is stored under a key, it can only drop it. *)
Lemma getCache_lookup_Some now key cache k item :
  Map_wf cache → Map_get k (getCache now key cache).2 = Some item →
  Map_get k cache = Some item.
Proof.
  intros Hwf. unfold getCache. destruct (Map_get key cache) as [it|] eqn:Hget; [|done].
  destruct (expiry it <? now)%Z; simpl.
  - by apply Map_get_delete_Some.
  - rewrite Map_get_set. destruct (decide (key = k)) as [<-|Hne]; [congruence|].
    by apply Map_get_delete_Some.
Qed.

(** What stays under the key that was read is what the read returned. *)
Lemma getCache_lookup_key now key cache item :
  Map_wf cache → Map_get key (getCache now key cache).2 = Some item →
  (getCache now key cache).1 = data item.
Proof.
  intros Hwf. unfold getCache. destruct (Map_get key cache) as [it|] eqn:Hget; simpl.
  - destruct (expiry it <? now)%Z; simpl.
    + by rewrite Map_get_delete_eq.
    + rewrite Map_get_set. destruct (decide (key = key)); [congruence | done].
  - congruence.
Qed.

Lemma _getFromDataCache_frame now key this :
  let this' := (_getFromDataCache now key this).2 in
  pendingRequests this' = pendingRequests this ∧
  maxSize this' = maxSize this ∧ cacheDuration this' = cacheDuration this.
Proof. by rewrite _getFromDataCache_getCache. Qed.

Lemma _setToDataCache_frame now key data this :
  let this' := _setToDataCache now key data this in
  pendingRequests this' = pendingRequests this ∧
  maxSize this' = maxSize this ∧ cacheDuration this' = cacheDuration this.
Proof. done. Qed.

Lemma _setToDataCache_wf now key data this :
  Map_wf (dataCache this) → Map_wf (dataCache (_setToDataCache now key data this)).
Proof.
  intros Hwf. unfold _setToDataCache. simpl. apply Map_wf_set.
  destruct (maxSize this <=? Map_size (dataCache this)); [|done].
  by apply Map_wf_delete_first.
Qed.

(** The entry that was written is there, with its expiry. *)
Lemma _setToDataCache_lookup_key now key data this :
  Map_get key (dataCache (_setToDataCache now key data this))
  = Some (mkItem data (now + cacheDuration this)).
Proof.
  unfold _setToDataCache. simpl. rewrite Map_get_set. by destruct (decide (key = key)).
Qed.

(** A write brings in no entry for another key. *)
Lemma _setToDataCache_lookup_Some now key data this k item :
  Map_wf (dataCache this) → k ≠ key →
  Map_get k (dataCache (_setToDataCache now key data this)) = Some item →
  Map_get k (dataCache this) = Some item.
Proof.
  intros Hwf Hne. unfold _setToDataCache. simpl. rewrite Map_get_set.
  destruct (decide (key = k)); [congruence|].
  destruct (maxSize this <=? Map_size (dataCache this)); [|done].
  by apply Map_get_delete_first_Some.
Qed.

(** With a capacity of at least one, a write keeps the cache within it. *)
Lemma _setToDataCache_size now key data this :
  1 ≤ maxSize this → Map_size (dataCache this) ≤ maxSize this →
  Map_size (dataCache (_setToDataCache now key data this)) ≤ maxSize this.
Proof.
  intros Hcap Hsize. unfold _setToDataCache. simpl.
  etrans; [apply Map_size_set_le|].
  destruct (Nat.leb_spec (maxSize this) (Map_size (dataCache this))) as [Hfull|?]; [|lia].
  assert (dataCache this ≠ []) as Hne by (intros Heq; rewrite Heq in Hfull; simpl in Hfull; lia).
  apply Map_size_delete_first in Hne. lia.
Qed.
End cache_facts.

(** ** The invariant of the event loop *)


Lemma Inv_boot options : Inv (boot options).
Proof.
  split; simpl; try done.
  - apply NoDup_nil_2.
  - destruct (maxSizeOption options) as [n|]; [|lia].
    destruct (Nat.eqb_spec n 0); lia.
  - lia.
Qed.

(** Without options the manager has the constants of the first part of
    [tmdb.js]. *)
Lemma new_RequestManager_default :
  cacheDuration (new_RequestManager (mkOptions None None)) = CACHE_DURATION ∧
  maxSize (new_RequestManager (mkOptions None None)) = MAX_CACHE_SIZE.
Proof. done. Qed.

(** [fetch], with the cache lookup spelled out. *)
Lemma fetch_eq now key rt :
  fetch now key rt =
    let got := getCache now key (dataCache (manager rt)) in
    let this := set_dataCache got.2 (manager rt) in
    if truthy got.1 then
      (Cached got.1, mkRuntime this (inflight rt) (settled rt) (fresh rt) (invocations rt))
    else
      match pendingRequests (manager rt) !! key with
      | Some promise =>
          (Pending promise,
           mkRuntime this (inflight rt) (settled rt) (fresh rt) (invocations rt))
      | None =>
          (Pending (fresh rt),
           mkRuntime
             (set_pendingRequests (<[key := fresh rt]> (pendingRequests (manager rt))) this)
             (<[fresh rt := key]> (inflight rt)) (settled rt) (S (fresh rt))
             (key :: invocations rt))
      end.
Proof. unfold fetch. by rewrite _getFromDataCache_getCache. Qed.

Lemma Inv_fetch now key rt : Inv rt → Inv (fetch now key rt).2.
Proof.
  intros [Hwf Hcap Hsize Hpend Hfresh Hsettled Hfalsy]. rewrite fetch_eq. simpl.
  pose proof (getCache_wf now key _ Hwf) as Hwf'.
  pose proof (getCache_size now key _ Hwf) as Hsize'.
  destruct (truthy _) eqn:Htruthy; [|destruct (pendingRequests (manager rt) !! key) as [q|] eqn:Hkey].
  - split; simpl; try done; [lia|].
    intros k p item Hk Hget. eapply Hfalsy; [done|]. by eapply getCache_lookup_Some.
  - split; simpl; try done; [lia|].
    intros k p item Hk Hget. eapply Hfalsy; [done|]. by eapply getCache_lookup_Some.
  - split; simpl; try done; [lia| | | |].
    + intros k p. rewrite !lookup_insert. destruct (decide (key = k)) as [<-|Hne].
      * destruct (decide (fresh rt = p)) as [<-|Hp]; [done|].
        split; [congruence|]. intros Hin. apply Hpend in Hin. congruence.
      * destruct (decide (fresh rt = p)) as [<-|Hp]; [|apply Hpend].
        split; [|congruence]. intros Hin. apply Hpend, Hfresh in Hin. lia.
    + intros p k. rewrite lookup_insert. destruct (decide (fresh rt = p)) as [<-|Hp]; [lia|].
      intros Hin. apply Hfresh in Hin. lia.
    + intros p o Hp. destruct (Hsettled p o Hp) as [Hlt Hnone]. split; [lia|].
      rewrite lookup_insert_ne; [done | lia].
    + intros k p item. rewrite lookup_insert. destruct (decide (key = k)) as [<-|Hne].
      * intros _ Hget. apply getCache_lookup_key in Hget; [|done]. congruence.
      * intros Hk Hget. eapply Hfalsy; [done|]. by eapply getCache_lookup_Some.
Qed.

Lemma Inv_settle now promise outcome rt : Inv rt → Inv (settle now promise outcome rt).
Proof.
  intros HI. unfold settle. destruct (inflight rt !! promise) as [key|] eqn:Hin; [|done].
  destruct HI as [Hwf Hcap Hsize Hpend Hfresh Hsettled Hfalsy].
  assert (∀ k p, delete key (pendingRequests (manager rt)) !! k = Some p ↔
                 delete promise (inflight rt) !! p = Some k) as Hpend'.
  { intros k p. rewrite !lookup_delete. destruct (decide (key = k)) as [<-|Hne].
    - destruct (decide (promise = p)) as [<-|Hp]; [done|].
      split; [done|]. intros Hq. apply Hpend in Hq. apply Hpend in Hin. congruence.
    - destruct (decide (promise = p)) as [<-|Hp]; [|apply Hpend].
      split; [|done]. intros Hq. apply Hpend in Hq. congruence. }
  assert (∀ p k, delete promise (inflight rt) !! p = Some k → p < fresh rt) as Hfresh'.
  { intros p k. rewrite lookup_delete. destruct (decide (promise = p)); [done | apply Hfresh]. }
  assert (∀ p o, <[promise := outcome]> (settled rt) !! p = Some o →
                 p < fresh rt ∧ delete promise (inflight rt) !! p = None) as Hsettled'.
  { intros p o. rewrite lookup_insert, lookup_delete.
    destruct (decide (promise = p)) as [<-|Hp]; [by eauto | apply Hsettled]. }
  destruct outcome as [data|message]; split; simpl; try done.
  - by apply _setToDataCache_wf.
  - by apply _setToDataCache_size.
  - intros k p item. rewrite lookup_delete. destruct (decide (key = k)) as [<-|Hne]; [done|].
    intros Hk Hget. eapply Hfalsy; [done|].
    eapply _setToDataCache_lookup_Some; [done | | exact Hget]. congruence.
  - intros k p item. rewrite lookup_delete. destruct (decide (key = k)) as [<-|Hne]; [done|].
    apply Hfalsy.
Qed.

Lemma Inv_step rt e : Inv rt → Inv (step rt e).2.
Proof.
  intros HI. destruct e as [now key|now promise outcome]; simpl.
  - pose proof (Inv_fetch now key rt HI). by destruct (fetch now key rt).
  - by apply Inv_settle.
Qed.

Lemma run_cons rt e es :
  run rt (e :: es) =
    (match (step rt e).1 with
     | Some a => a :: (run (step rt e).2 es).1
     | None => (run (step rt e).2 es).1
     end, (run (step rt e).2 es).2).
Proof. simpl. destruct (step rt e) as [r rt1]. simpl. by destruct (run rt1 es). Qed.

Lemma Inv_run rt es : Inv rt → Inv (run rt es).2.
Proof.
  revert rt. induction es as [|e es IH]; intros rt HI; [done|].
  rewrite run_cons. simpl. by apply IH, Inv_step.
Qed.

(** Every state the program can be in satisfies the invariant. *)
Lemma Inv_reachable options history : Inv (run (boot options) history).2.
Proof. apply Inv_run, Inv_boot. Qed.

(** ** A wave of coalesced calls *)


(** Only a stored, unexpired and truthy value is returned by the lookup as
    truthy. *)
Lemma getCache_truthy now key cache :
  truthy (getCache now key cache).1 = true →
  ∃ item, Map_get key cache = Some item ∧ (getCache now key cache).1 = data item ∧
          (now ≤ expiry item)%Z.
Proof.
  unfold getCache. destruct (Map_get key cache) as [item|]; [|done].
  destruct (Z.ltb_spec (expiry item) now); [done|]. simpl. intros _. by exists item.
Qed.

Lemma invoked_cons key k rt this infl sett fr :
  invoked key (mkRuntime this infl sett fr (k :: invocations rt))
  = if decide (k = key) then S (invoked key rt) else invoked key rt.
Proof.
  unfold invoked. simpl. rewrite filter_cons. by destruct (decide (k = key)).
Qed.

Lemma settled_fetch now key rt : settled (fetch now key rt).2 = settled rt.
Proof.
  rewrite fetch_eq. simpl. destruct (truthy _); [done|].
  by destruct (pendingRequests (manager rt) !! key).
Qed.

Lemma inflight_not_settled rt p key :
  Inv rt → inflight rt !! p = Some key → settled rt !! p = None.
Proof.
  intros HI Hin. destruct (settled rt !! p) as [o|] eqn:Hs; [|done].
  apply (inv_settled rt HI) in Hs. destruct Hs. congruence.
Qed.

(** While [key] is pending on [p], a step other than the settlement of [p]
    leaves it pending, invokes no producer for [key], and answers a call for
    [key] with [p]. *)
Lemma pending_step rt key p e :
  Inv rt → pendingRequests (manager rt) !! key = Some p → settles p e = false →
  pendingRequests (manager (step rt e).2) !! key = Some p ∧
  invoked key (step rt e).2 = invoked key rt ∧
  ∀ a, (step rt e).1 = Some (key, a) → a = Pending p.
Proof.
  intros HI Hkey He. destruct e as [now k|now q outcome]; simpl.
  - clear He. rewrite fetch_eq. simpl.
    destruct (truthy _) eqn:Htruthy; [|destruct (pendingRequests (manager rt) !! k) as [q|] eqn:Hk]; simpl.
    + split; [done|]. split; [done|]. intros a [= -> <-].
      destruct (getCache_truthy _ _ _ Htruthy) as (item & Hget & Hdata & _).
      pose proof (inv_falsy rt HI _ _ _ Hkey Hget). congruence.
    + split; [done|]. split; [done|]. intros a [= -> <-]. congruence.
    + assert (k ≠ key) by congruence.
      rewrite lookup_insert_ne by done. split; [done|].
      rewrite invoked_cons. destruct (decide (k = key)); [done|].
      split; [done|]. intros a [= ? _]. done.
  - simpl in He. apply bool_decide_eq_false in He. unfold settle.
    destruct (inflight rt !! q) as [k|] eqn:Hq; [|done].
    assert (k ≠ key).
    { intros ->. apply (inv_pending rt HI) in Hq. congruence. }
    simpl. split; [|done].
    rewrite lookup_delete_ne by done. by destruct outcome.
Qed.

Lemma pending_run rt key p es :
  Inv rt → pendingRequests (manager rt) !! key = Some p →
  Forall (λ e, settles p e = false) es →
  pendingRequests (manager (run rt es).2) !! key = Some p ∧
  invoked key (run rt es).2 = invoked key rt ∧
  ∀ a, (key, a) ∈ (run rt es).1 → a = Pending p.
Proof.
  revert rt. induction es as [|e es IH]; intros rt HI Hkey Hes.
  - simpl. split; [done|]. split; [done|]. intros a Ha. by apply elem_of_nil in Ha.
  - apply Forall_cons in Hes as [He Hes].
    destruct (pending_step rt key p e HI Hkey He) as (Hkey1 & Hinv1 & Hans1).
    destruct (IH _ (Inv_step rt e HI) Hkey1 Hes) as (Hkey2 & Hinv2 & Hans2).
    rewrite run_cons. simpl. split; [done|]. split; [congruence|].
    intros a Ha. destruct (step rt e).1 as [[k b]|] eqn:Hst; [|by apply Hans2].
    apply elem_of_cons in Ha as [[= <- <-]|Ha]; [by apply Hans1 | by apply Hans2].
Qed.

(** Once a promise has settled, its outcome stays. *)
Lemma settled_step rt e p o :
  Inv rt → settled rt !! p = Some o → settled (step rt e).2 !! p = Some o.
Proof.
  intros HI Hp. destruct e as [now k|now q outcome]; simpl.
  - pose proof (settled_fetch now k rt) as Hs. destruct (fetch now k rt). simpl in *. congruence.
  - unfold settle. destruct (inflight rt !! q) as [k|] eqn:Hq; [|done]. simpl.
    rewrite lookup_insert_ne; [done|]. intros ->.
    apply (inv_settled rt HI) in Hp. destruct Hp. congruence.
Qed.

Lemma settled_run rt es p o :
  Inv rt → settled rt !! p = Some o → settled (run rt es).2 !! p = Some o.
Proof.
  revert rt. induction es as [|e es IH]; intros rt HI Hp; [done|].
  rewrite run_cons. simpl. apply IH; [by apply Inv_step | by apply settled_step].
Qed.

(** A call that misses and finds nothing pending starts the producer. *)
Lemma fetch_starts now key rt :
  truthy (_getFromDataCache now key (manager rt)).1 = false →
  pendingRequests (manager rt) !! key = None →
  (fetch now key rt).1 = Pending (fresh rt) ∧
  pendingRequests (manager (fetch now key rt).2) !! key = Some (fresh rt) ∧
  inflight (fetch now key rt).2 !! fresh rt = Some key ∧
  invoked key (fetch now key rt).2 = S (invoked key rt) ∧
  fresh (fetch now key rt).2 = S (fresh rt).
Proof.
  rewrite _getFromDataCache_getCache, fetch_eq. simpl. intros -> ->. simpl.
  rewrite !lookup_insert_eq. rewrite invoked_cons. by destruct (decide (key = key)).
Qed.

(** What a settlement does to the registry and to the promise. *)
Lemma settle_inflight now p outcome rt key :
  Inv rt → inflight rt !! p = Some key →
  pendingRequests (manager (settle now p outcome rt)) !! key = None ∧
  inflight (settle now p outcome rt) !! p = None ∧
  settled (settle now p outcome rt) !! p = Some outcome ∧
  invocations (settle now p outcome rt) = invocations rt ∧
  fresh (settle now p outcome rt) = fresh rt.
Proof.
  intros HI Hin. unfold settle. rewrite Hin. simpl.
  by rewrite !lookup_delete_eq, lookup_insert_eq.
Qed.

(** A call that does not start the producer leaves the log of invocations as
    it was. *)
Lemma fetch_invoked_cases now key rt :
  ((fetch now key rt).1 = Pending (fresh rt) ∧
   truthy (_getFromDataCache now key (manager rt)).1 = false ∧
   pendingRequests (manager rt) !! key = None)
  ∨ (invocations (fetch now key rt).2 = invocations rt ∧
     inflight (fetch now key rt).2 = inflight rt ∧
     pendingRequests (manager (fetch now key rt).2) = pendingRequests (manager rt)).
Proof.
  rewrite _getFromDataCache_getCache, fetch_eq. simpl.
  destruct (truthy _); [by right|].
  destruct (pendingRequests (manager rt) !! key); [by right | by left].
Qed.

(** The next call after a miss that found [key] pending on nothing truthy. *)
Lemma pending_lookup_falsy rt key p now :
  Inv rt → pendingRequests (manager rt) !! key = Some p →
  truthy (getCache now key (dataCache (manager rt))).1 = false.
Proof.
  intros HI Hkey. destruct (truthy _) eqn:Htruthy; [|done].
  destruct (getCache_truthy _ _ _ Htruthy) as (item & Hget & Hdata & _).
  pose proof (inv_falsy rt HI _ _ _ Hkey Hget). congruence.
Qed.

(** ** The claims on coalescing *)

(** C1.  A wave: a call of [fetch] for [key] that misses while nothing is
    pending for [key], followed by any calls and settlements whatever, as long
    as the producer it started has not settled.  The producer is invoked once
    for the wave, every call for [key] in the wave is handed the same promise,
    which is still unsettled at the end of the wave, and once the producer
    resolves with [value] that promise is resolved with [value] for good. *)
Theorem fetch_coalesces_wave (options : Options) (history : list Event)
    (now : Z) (key : string) (wave : list Event) (now' : Z) (value : JSON)
    (later : list Event) :
  let rt0 := (run (boot options) history).2 in
  let p := fresh rt0 in
  let rt1 := (fetch now key rt0).2 in
  let rt2 := (run rt1 wave).2 in
  let rt3 := settle now' p (Resolved value) rt2 in
  truthy (_getFromDataCache now key (manager rt0)).1 = false →
  pendingRequests (manager rt0) !! key = None →
  Forall (λ e, settles p e = false) wave →
  (fetch now key rt0).1 = Pending p ∧
  (∀ a, (key, a) ∈ (run rt1 wave).1 → a = Pending p) ∧
  invoked key rt2 = S (invoked key rt0) ∧
  invoked key rt3 = S (invoked key rt0) ∧
  received (Pending p) rt2 = None ∧
  received (Pending p) (run rt3 later).2 = Some (Resolved value).
Proof.
  intros rt0 p rt1 rt2 rt3 Hmiss Hnone Hwave.
  pose proof (Inv_reachable options history) as HI0. fold rt0 in HI0.
  destruct (fetch_starts now key rt0 Hmiss Hnone) as (Hans & Hkey1 & Hin1 & Hinv1 & _).
  fold rt1 p in Hans, Hkey1, Hin1, Hinv1.
  assert (Inv rt1) as HI1 by by apply Inv_fetch.
  destruct (pending_run rt1 key p wave HI1 Hkey1 Hwave) as (Hkey2 & Hinv2 & Hans2).
  fold rt2 in Hkey2, Hinv2.
  assert (Inv rt2) as HI2 by by apply Inv_run.
  assert (inflight rt2 !! p = Some key) as Hin2 by by apply (inv_pending rt2 HI2).
  destruct (settle_inflight now' p (Resolved value) rt2 key HI2 Hin2)
    as (_ & _ & Hset3 & Hinv3 & _).
  fold rt3 in Hset3, Hinv3.
  split; [done|]. split; [done|]. split; [congruence|].
  split; [unfold invoked in *; congruence|].
  split; [by eapply inflight_not_settled|].
  simpl. apply settled_run; [by apply Inv_settle | done].
Qed.

Lemma fetch_coalesces_wave_witness :
  let rt1 := (fetch 0 "/3/movie/550" (boot (mkOptions None None))).2 in
  let wave := [CallFetch 1 "/3/movie/550"; CallFetch 2 "/3/tv/1"; CallFetch 3 "/3/movie/550"] in
  (∀ a, ("/3/movie/550", a) ∈ (run rt1 wave).1 → a = Pending 0) ∧
  invoked "/3/movie/550" (run rt1 wave).2 = 1.
Proof.
  destruct (fetch_coalesces_wave (mkOptions None None) [] 0 "/3/movie/550"
              [CallFetch 1 "/3/movie/550"; CallFetch 2 "/3/tv/1"; CallFetch 3 "/3/movie/550"]
              9 (JNum 1) []) as (_ & H2 & H3 & _).
  - vm_compute. reflexivity.
  - vm_compute. reflexivity.
  - repeat constructor.
  - split; [exact H2 | exact H3].
Defined.

(** C2.  In every state the program reaches: the registry holds exactly the
    producers' promises that are in flight, each under its key; no key has two
    producers in flight; the entry is there as soon as the call that invoked
    the producer returns, stays through every step that is not the settlement
    of that promise, and is gone after the settlement, whatever its outcome. *)
Theorem pendingRequests_tracks_inflight (options : Options) (history : list Event) :
  let rt := (run (boot options) history).2 in
  (∀ key p, pendingRequests (manager rt) !! key = Some p ↔ inflight rt !! p = Some key) ∧
  (∀ key p q, inflight rt !! p = Some key → inflight rt !! q = Some key → p = q) ∧
  (∀ now key, invocations (fetch now key rt).2 ≠ invocations rt →
     pendingRequests (manager rt) !! key = None ∧
     pendingRequests (manager (fetch now key rt).2) !! key = Some (fresh rt) ∧
     inflight (fetch now key rt).2 !! fresh rt = Some key) ∧
  (∀ key p e, pendingRequests (manager rt) !! key = Some p → settles p e = false →
     pendingRequests (manager (step rt e).2) !! key = Some p) ∧
  (∀ now p key outcome, inflight rt !! p = Some key →
     pendingRequests (manager (settle now p outcome rt)) !! key = None ∧
     inflight (settle now p outcome rt) !! p = None).
Proof.
  intros rt. pose proof (Inv_reachable options history) as HI. fold rt in HI.
  split; [apply (inv_pending rt HI)|]. split; [|split; [|split]].
  - intros key p q Hp Hq. apply (inv_pending rt HI) in Hp, Hq. congruence.
  - intros now key Hlog.
    destruct (fetch_invoked_cases now key rt) as [(_ & Hmiss & Hnone)|(Hsame & _)]; [|done].
    destruct (fetch_starts now key rt Hmiss Hnone) as (_ & ? & ? & _). done.
  - intros key p e Hkey He. by destruct (pending_step rt key p e HI Hkey He).
  - intros now p key outcome Hin.
    by destruct (settle_inflight now p outcome rt key HI Hin) as (? & ? & _).
Qed.

Lemma pendingRequests_tracks_inflight_witness :
  let rt := (run (boot (mkOptions None None)) [CallFetch 0 "/3/movie/550"]).2 in
  pendingRequests (manager rt) !! "/3/movie/550" = Some 0 ∧
  pendingRequests (manager (settle 7 0 (Rejected "Not Found") rt)) !! "/3/movie/550" = None.
Proof.
  destruct (pendingRequests_tracks_inflight (mkOptions None None) [CallFetch 0 "/3/movie/550"])
    as (H1 & _ & _ & _ & H5).
  split.
  - apply H1. vm_compute. reflexivity.
  - apply (H5 7%Z 0 "/3/movie/550" (Rejected "Not Found")). vm_compute. reflexivity.
Defined.

(** C3.  When the producer in flight for [key] rejects: the promise every
    coalesced caller was handed is rejected with that error, the data cache is
    left as it was, the key is no longer pending, and the next call of [fetch]
    for [key], whenever it comes, invokes the producer again and is handed a
    new, unsettled promise. *)
Theorem rejection_is_shared_and_not_cached (options : Options) (history : list Event)
    (now : Z) (p : Promise) (key : string) (message : string) (now' : Z) :
  let rt := (run (boot options) history).2 in
  let rt' := settle now p (Rejected message) rt in
  inflight rt !! p = Some key →
  received (Pending p) rt' = Some (Rejected message) ∧
  dataCache (manager rt') = dataCache (manager rt) ∧
  pendingRequests (manager rt') !! key = None ∧
  (fetch now' key rt').1 = Pending (fresh rt') ∧
  fresh rt' ≠ p ∧
  received (Pending (fresh rt')) rt' = None ∧
  invoked key (fetch now' key rt').2 = S (invoked key rt').
Proof.
  intros rt rt' Hin.
  pose proof (Inv_reachable options history) as HI. fold rt in HI.
  assert (Inv rt') as HI' by by apply Inv_settle.
  destruct (settle_inflight now p (Rejected message) rt key HI Hin)
    as (Hnone & _ & Hset & _ & Hfresh).
  fold rt' in Hnone, Hset, Hfresh.
  assert (dataCache (manager rt') = dataCache (manager rt)) as Hcache.
  { unfold rt', settle. by rewrite Hin. }
  assert (truthy (_getFromDataCache now' key (manager rt')).1 = false) as Hmiss.
  { rewrite _getFromDataCache_getCache. simpl. rewrite Hcache.
    eapply pending_lookup_falsy; [done|]. by apply (inv_pending rt HI). }
  destruct (fetch_starts now' key rt' Hmiss Hnone) as (Hans & _ & _ & Hinv & _).
  split; [done|]. split; [done|]. split; [done|]. split; [done|].
  split; [|split; [|done]].
  - rewrite Hfresh. apply (inv_fresh rt HI) in Hin. lia.
  - simpl. destruct (settled rt' !! fresh rt') as [o|] eqn:Hs; [|done].
    apply (inv_settled rt' HI') in Hs. lia.
Qed.

Lemma rejection_is_shared_and_not_cached_witness :
  let rt := (run (boot (mkOptions None None))
               [CallFetch 0 "/3/movie/550"; CallFetch 1 "/3/movie/550"]).2 in
  let rt' := settle 7 0 (Rejected "Not Found") rt in
  received (Pending 0) rt' = Some (Rejected "Not Found") ∧
  dataCache (manager rt') = [] ∧
  (fetch 8 "/3/movie/550" rt').1 = Pending 1.
Proof.
  destruct (rejection_is_shared_and_not_cached (mkOptions None None)
              [CallFetch 0 "/3/movie/550"; CallFetch 1 "/3/movie/550"]
              7 0 "/3/movie/550" "Not Found" 8) as (H1 & H2 & _ & H4 & _).
  - vm_compute. reflexivity.
  - split; [exact H1|]. split; [exact H2 | exact H4].
Defined.

(** ** The claims on the data cache *)

Lemma Map_delete_app_absent {V : Type} (k : string) (v : V) (m : list (string * V)) :
  Map_get k m = None → Map_delete k (m ++ [(k, v)]) = m.
Proof.
  induction m as [|[k0 v0] m IH]; simpl.
  - intros _. by destruct (decide (k = k)).
  - destruct (decide (k0 = k)); [done|]. intros H. by rewrite IH.
Qed.

(** A read that hits leaves every lookup as it was. *)
Lemma getCache_hit_lookup now key cache item k :
  Map_wf cache → Map_get key cache = Some item → (now ≤ expiry item)%Z →
  Map_get k (getCache now key cache).2 = Map_get k cache.
Proof.
  intros Hwf Hget Hnow. rewrite (getCache_hit now key cache item) by done. simpl.
  rewrite <-Map_set_absent by by apply Map_get_delete_eq.
  rewrite Map_get_set. destruct (decide (key = k)) as [<-|Hne]; [done|].
  by apply Map_get_delete_ne.
Qed.

(** C5, as amended.  An entry is expired when [Date.now()] is strictly greater
    than its expiry: the read then returns [null] and deletes the entry.  Up to
    and including the expiry itself the read returns the stored data and moves
    the entry to the most recent position.  So a value written at time [t] is
    read back for an elapsed time of at most [cacheDuration], and no longer
    after that. *)
Theorem get_expires_strictly_after (now : Z) (key : string) (this : RequestManager)
    (item : Item) :
  Map_wf (dataCache this) →
  Map_get key (dataCache this) = Some item →
  ((expiry item < now)%Z →
     _getFromDataCache now key this
     = (JNull, set_dataCache (Map_delete key (dataCache this)) this) ∧
     Map_get key (dataCache (_getFromDataCache now key this).2) = None) ∧
  ((now ≤ expiry item)%Z →
     _getFromDataCache now key this
     = (data item, set_dataCache (Map_delete key (dataCache this) ++ [(key, item)]) this) ∧
     last (Map_keys (dataCache (_getFromDataCache now key this).2)) = Some key) ∧
  (∀ t v elapsed,
     (_getFromDataCache (t + elapsed) key (_setToDataCache t key v this)).1
     = if (elapsed <=? cacheDuration this)%Z then v else JNull).
Proof.
  intros Hwf Hget. split; [|split].
  - intros Hnow. rewrite _getFromDataCache_getCache.
    rewrite (getCache_expired now key _ item) by done. simpl.
    split; [done | by apply Map_get_delete_eq].
  - intros Hnow. rewrite _getFromDataCache_getCache.
    rewrite (getCache_hit now key _ item) by done. simpl.
    split; [done|]. unfold Map_keys. rewrite fmap_app. simpl. apply last_snoc.
  - intros t v elapsed. unfold _getFromDataCache.
    rewrite _setToDataCache_lookup_key. simpl.
    destruct (Z.ltb_spec (t + cacheDuration this) (t + elapsed));
      destruct (Z.leb_spec elapsed (cacheDuration this)); try lia; done.
Qed.

Lemma get_expires_strictly_after_witness :
  let this := {| cacheDuration := 1000; maxSize := 2;
                 dataCache := [("a", mkItem (JNum 1) 1000); ("b", mkItem (JNum 2) 1500)];
                 pendingRequests := ∅ |} in
  (_getFromDataCache 1001 "a" this).1 = JNull ∧
  (_getFromDataCache 1000 "a" this).1 = JNum 1.
Proof.
  intros this.
  destruct (get_expires_strictly_after 1001 "a" this (mkItem (JNum 1) 1000))
    as ([H1 _] & _ & _); [compute_done | reflexivity | simpl; lia |].
  destruct (get_expires_strictly_after 1000 "a" this (mkItem (JNum 1) 1000))
    as (_ & [H2 _] & _); [compute_done | reflexivity | simpl; lia |].
  split; [by rewrite H1 | by rewrite H2].
Defined.

(** C5 as stated fails at the boundary: an entry written at time 0 with a
    duration of 1000 expires at 1000, and a read at 1000 still returns it. *)
Lemma get_at_expiry_counterexample :
  let this := _setToDataCache 0 "/3/movie/550" (JNum 1)
                (new_RequestManager (mkOptions (Some 1000%Z) None)) in
  Map_get "/3/movie/550" (dataCache this) = Some (mkItem (JNum 1) 1000) ∧
  ¬ ((1000 ≤ 1000)%Z → (_getFromDataCache 1000 "/3/movie/550" this).1 = JNull).
Proof.
  split; [reflexivity|]. intros H. specialize (H ltac:(lia)). vm_compute in H. discriminate H.
Qed.

(** C10.  A read that hits returns the stored data and moves the entry to the
    end of the map; the entry is the same one, with the data and the expiry it
    had; every lookup answers as before, the other entries keep their order,
    and nothing else of the manager changes. *)
Theorem hit_only_moves_entry (now : Z) (key : string) (this : RequestManager)
    (item : Item) :
  let this' := (_getFromDataCache now key this).2 in
  Map_wf (dataCache this) →
  Map_get key (dataCache this) = Some item →
  (now ≤ expiry item)%Z →
  (_getFromDataCache now key this).1 = data item ∧
  dataCache this' = Map_delete key (dataCache this) ++ [(key, item)] ∧
  Map_get key (dataCache this') = Some item ∧
  (∀ k, Map_get k (dataCache this') = Map_get k (dataCache this)) ∧
  Map_delete key (dataCache this') = Map_delete key (dataCache this) ∧
  Map_size (dataCache this') = Map_size (dataCache this) ∧
  pendingRequests this' = pendingRequests this ∧
  maxSize this' = maxSize this ∧
  cacheDuration this' = cacheDuration this.
Proof.
  intros this' Hwf Hget Hnow.
  assert (∀ k, Map_get k (dataCache this') = Map_get k (dataCache this)) as Hsame.
  { intros k. unfold this'. rewrite _getFromDataCache_getCache. simpl.
    by eapply getCache_hit_lookup. }
  unfold this' in *. rewrite _getFromDataCache_getCache in *.
  rewrite (getCache_hit now key _ item) in * by done. simpl in *.
  split; [done|]. split; [done|]. split; [by rewrite Hsame|]. split; [done|].
  split; [by apply Map_delete_app_absent, Map_get_delete_eq|].
  split; [|done].
  unfold Map_size. rewrite length_app. simpl.
  apply Map_size_delete in Hget. unfold Map_size in Hget. lia.
Qed.

Lemma hit_only_moves_entry_witness :
  let this := {| cacheDuration := 1000; maxSize := 2;
                 dataCache := [("a", mkItem (JNum 1) 1000); ("b", mkItem (JNum 2) 1500)];
                 pendingRequests := ∅ |} in
  dataCache (_getFromDataCache 900 "a" this).2
  = [("b", mkItem (JNum 2) 1500); ("a", mkItem (JNum 1) 1000)].
Proof.
  intros this.
  destruct (hit_only_moves_entry 900 "a" this (mkItem (JNum 1) 1000))
    as (_ & H & _); [compute_done | reflexivity | simpl; lia |].
  exact H.
Defined.

(** ** The claims on hits and misses of [fetch] *)

(** [fetch] answers from the cache exactly when the lookup returns a truthy
    value. *)
Lemma fetch_Cached now key rt v :
  (fetch now key rt).1 = Cached v ↔
  (getCache now key (dataCache (manager rt))).1 = v ∧ truthy v = true.
Proof.
  rewrite fetch_eq. simpl.
  destruct (truthy (getCache now key (dataCache (manager rt))).1) eqn:Htruthy; simpl.
  - split; [intros [= <-]; done | intros [-> _]; done].
  - split; [by destruct (pendingRequests (manager rt) !! key) | intros [<- ?]; congruence].
Qed.

(** A hit changes neither the registry nor the promises nor the log. *)
Lemma fetch_Cached_frame now key rt v :
  (fetch now key rt).1 = Cached v →
  invocations (fetch now key rt).2 = invocations rt ∧
  pendingRequests (manager (fetch now key rt).2) = pendingRequests (manager rt) ∧
  inflight (fetch now key rt).2 = inflight rt ∧
  settled (fetch now key rt).2 = settled rt ∧
  fresh (fetch now key rt).2 = fresh rt.
Proof.
  rewrite fetch_eq. simpl. destruct (truthy _); [done|].
  by destruct (pendingRequests (manager rt) !! key).
Qed.

(** C9.  While a falsy value is stored under [key], a call of [fetch] for
    [key] is never answered from the cache: it is handed the pending promise
    if there is one, and otherwise invokes the producer.  A resolved value is
    stored whether it is truthy or not.  And an answer from the cache is
    always a truthy value that is stored under the key and has not expired. *)
Theorem falsy_value_bypasses_cache (rt : Runtime) (now : Z) (key : string) (item : Item) :
  Map_get key (dataCache (manager rt)) = Some item →
  truthy (data item) = false →
  (∀ v, (fetch now key rt).1 ≠ Cached v) ∧
  (fetch now key rt).1
  = Pending (default (fresh rt) (pendingRequests (manager rt) !! key)) ∧
  (pendingRequests (manager rt) !! key = None →
     invoked key (fetch now key rt).2 = S (invoked key rt)) ∧
  (∀ t p v, inflight rt !! p = Some key →
     Map_get key (dataCache (manager (settle t p (Resolved v) rt)))
     = Some (mkItem v (t + cacheDuration (manager rt)))) ∧
  (∀ rt' now' key' v, (fetch now' key' rt').1 = Cached v →
     truthy v = true ∧
     ∃ item', Map_get key' (dataCache (manager rt')) = Some item' ∧
              data item' = v ∧ (now' ≤ expiry item')%Z).
Proof.
  intros Hget Hfalsy.
  assert (truthy (getCache now key (dataCache (manager rt))).1 = false) as Hmiss.
  { unfold getCache. rewrite Hget. by destruct (expiry item <? now)%Z. }
  split; [|split; [|split; [|split]]].
  - intros v Hv. apply fetch_Cached in Hv as [<- ?]. congruence.
  - rewrite fetch_eq. simpl. rewrite Hmiss.
    by destruct (pendingRequests (manager rt) !! key).
  - intros Hnone. apply fetch_starts; [|done].
    by rewrite _getFromDataCache_getCache.
  - intros t p v Hin. unfold settle. rewrite Hin. simpl.
    rewrite Map_get_set. by destruct (decide (key = key)).
  - intros rt' now' key' v Hv. apply fetch_Cached in Hv as [Hv Htruthy].
    split; [done|]. rewrite <-Hv in Htruthy.
    destruct (getCache_truthy _ _ _ Htruthy) as (item' & ? & ? & ?).
    exists item'. split; [done|]. split; [congruence | done].
Qed.

Lemma falsy_value_bypasses_cache_witness :
  let rt := (run (boot (mkOptions None None))
               [CallFetch 0 "/3/movie/550"; Settle 1 0 (Resolved (JNum 0))]).2 in
  (fetch 2 "/3/movie/550" rt).1 = Pending 1 ∧
  invoked "/3/movie/550" (fetch 2 "/3/movie/550" rt).2 = 2.
Proof.
  intros rt.
  destruct (falsy_value_bypasses_cache rt 2 "/3/movie/550" (mkItem (JNum 0) 600001))
    as (_ & H2 & H3 & _); [reflexivity | reflexivity |].
  split; [exact H2 | apply H3; reflexivity].
Defined.


(** C8, as amended.  With an empty data cache and nothing pending for [key]:
    the first call invokes the producer once, and when the producer resolves
    with [value], truthy or not, the cache holds exactly that entry.  After
    that and any further calls and settlements: if [value] is truthy, a call
    for [key] made while the entry is still in the cache and not after its
    expiry invokes nothing, is answered with [value] from the cache, and
    neither changes the registry nor depends on it. *)
Theorem miss_then_hit (rt0 : Runtime) (now1 : Z) (key : string) (now2 : Z)
    (value : JSON) (between : list Event) (now3 : Z) :
  let p := fresh rt0 in
  let rt1 := (fetch now1 key rt0).2 in
  let rt2 := settle now2 p (Resolved value) rt1 in
  let item := mkItem value (now2 + cacheDuration (manager rt0)) in
  let rt2' := (run rt2 between).2 in
  let rt3 := (fetch now3 key rt2').2 in
  dataCache (manager rt0) = [] →
  pendingRequests (manager rt0) !! key = None →
  (fetch now1 key rt0).1 = Pending p ∧
  invoked key rt2 = S (invoked key rt0) ∧
  received (Pending p) rt2 = Some (Resolved value) ∧
  dataCache (manager rt2) = [(key, item)] ∧
  (truthy value = true →
   Map_get key (dataCache (manager rt2')) = Some item →
   (now3 ≤ expiry item)%Z →
   (fetch now3 key rt2').1 = Cached value ∧
   invocations rt3 = invocations rt2' ∧
   pendingRequests (manager rt3) = pendingRequests (manager rt2') ∧
   inflight rt3 = inflight rt2' ∧
   (∀ registry, (fetch now3 key (with_registry registry rt2')).1 = Cached value)).
Proof.
  intros p rt1 rt2 item rt2' rt3 Hempty Hnone.
  assert (truthy (_getFromDataCache now1 key (manager rt0)).1 = false) as Hmiss.
  { unfold _getFromDataCache. by rewrite Hempty. }
  destruct (fetch_starts now1 key rt0 Hmiss Hnone) as (Hans & _ & Hin & Hinv & _).
  fold rt1 p in Hans, Hin, Hinv.
  assert (manager rt1 =
          set_pendingRequests (<[key := p]> (pendingRequests (manager rt0))) (manager rt0))
    as Hmgr1.
  { unfold rt1. rewrite fetch_eq. simpl. unfold getCache. rewrite Hempty, Hnone. simpl.
    unfold set_pendingRequests, set_dataCache. simpl. by rewrite Hempty. }
  assert (dataCache (manager rt2) = [(key, item)]) as Hcache.
  { unfold rt2, settle. rewrite Hin. simpl. rewrite Hmgr1. simpl. rewrite Hempty.
    by destruct (maxSize (manager rt0) <=? Map_size []). }
  split; [done|]. split; [|split; [|split; [done|]]].
  - unfold rt2, settle. rewrite Hin. done.
  - unfold rt2, settle. rewrite Hin. simpl. by rewrite lookup_insert_eq.
  - intros Htruthy Hstored Hnow.
    assert (∀ registry, (fetch now3 key (with_registry registry rt2')).1 = Cached value)
      as Hhit.
    { intros registry. apply fetch_Cached. split; [|done]. simpl.
      unfold getCache. rewrite Hstored.
      by destruct (Z.ltb_spec (expiry item) now3); [lia|]. }
    assert ((fetch now3 key rt2').1 = Cached value) as Hhit2.
    { apply fetch_Cached. specialize (Hhit ∅). by apply fetch_Cached in Hhit. }
    by destruct (fetch_Cached_frame now3 key rt2' value Hhit2) as (? & ? & ? & _).
Qed.

Lemma miss_then_hit_witness :
  let rt2 := (run (boot (mkOptions None None))
                [CallFetch 0 "/3/movie/550"; Settle 1 0 (Resolved (JNum 1))]).2 in
  let rt2' := (run rt2 [CallFetch 2 "/3/tv/1"; Settle 3 1 (Resolved (JNum 2))]).2 in
  invoked "/3/movie/550" rt2 = 1 ∧
  (fetch 600001 "/3/movie/550" rt2').1 = Cached (JNum 1).
Proof.
  destruct (miss_then_hit (boot (mkOptions None None)) 0 "/3/movie/550" 1 (JNum 1)
              [CallFetch 2 "/3/tv/1"; Settle 3 1 (Resolved (JNum 2))] 600001)
    as (_ & H2 & _ & _ & H5); [reflexivity | reflexivity |].
  destruct H5 as (H5 & _); [reflexivity | reflexivity | simpl; lia |].
  split; [exact H2 | exact H5].
Defined.

(** Why the entry has to be in the cache still: with a capacity of 1, a reply
    for another key written in between evicts it, and the second call for the
    first key goes to the producer again although its value was truthy and
    has not expired. *)
Lemma miss_then_hit_after_eviction :
  let rt := (run (boot (mkOptions None (Some 1)))
               [CallFetch 0 "a"; Settle 1 0 (Resolved (JNum 1));
                CallFetch 2 "b"; Settle 3 1 (Resolved (JNum 2))]).2 in
  dataCache (manager rt) = [("b", mkItem (JNum 2) 600003)] ∧
  (fetch 4 "a" rt).1 = Pending 2 ∧
  invoked "a" (fetch 4 "a" rt).2 = 2.
Proof. repeat split; vm_compute; reflexivity. Qed.

(** C8 as stated fails for a falsy value: the producer resolves with [null],
    the entry is stored and has not expired, and the second call invokes the
    producer again instead of answering from the cache. *)
Lemma miss_then_hit_counterexample :
  let rt2 := (run (boot (mkOptions None None))
                [CallFetch 0 "/3/movie/550"; Settle 1 0 (Resolved JNull)]).2 in
  Map_get "/3/movie/550" (dataCache (manager rt2)) = Some (mkItem JNull 600001) ∧
  (fetch 2 "/3/movie/550" rt2).1 = Pending 1 ∧
  invoked "/3/movie/550" (fetch 2 "/3/movie/550" rt2).2 = 2 ∧
  ¬ ((fetch 2 "/3/movie/550" rt2).1 = Cached JNull ∧
     invoked "/3/movie/550" (fetch 2 "/3/movie/550" rt2).2 = invoked "/3/movie/550" rt2).
Proof.
  split; [reflexivity|]. split; [reflexivity|]. split; [reflexivity|].
  intros [H _]. vm_compute in H. discriminate H.
Qed.

(** ** The claims on capacity and eviction *)

Lemma Map_keys_delete_first {V : Type} (m : list (string * V)) :
  Map_keys (Map_delete_first m) = tail (Map_keys m).
Proof. destruct m as [|[k v] m]; [done|]. by rewrite Map_delete_first_cons. Qed.

Lemma tail_drop {A : Type} (l : list A) (i : nat) : tail (drop i l) = drop (S i) l.
Proof.
  revert l. induction i as [|i IH]; intros [|x l]; by simpl.
Qed.

Lemma elem_of_tail {A : Type} (x : A) (l : list A) : x ∈ tail l → x ∈ l.
Proof. destruct l; simpl; [done|]. intros ?. apply elem_of_cons. by right. Qed.

(** Writing a key that is not in the cache: the oldest entry leaves when the
    cache is full, and the new entry goes to the end. *)
Lemma _setToDataCache_keys_absent now key data this :
  key ∉ Map_keys (dataCache this) →
  Map_keys (dataCache (_setToDataCache now key data this))
  = (if maxSize this <=? Map_size (dataCache this)
     then tail (Map_keys (dataCache this)) else Map_keys (dataCache this)) ++ [key].
Proof.
  intros Hnotin. unfold _setToDataCache. simpl.
  destruct (maxSize this <=? Map_size (dataCache this)).
  - rewrite Map_set_absent.
    + unfold Map_keys at 1. rewrite fmap_app. simpl. f_equal. apply Map_keys_delete_first.
    + apply Map_get_None. rewrite Map_keys_delete_first. intros Hin.
      by apply Hnotin, elem_of_tail.
  - rewrite Map_set_absent by by apply Map_get_None.
    unfold Map_keys. by rewrite fmap_app.
Qed.


Lemma insert_all_maxSize this inserts : maxSize (insert_all this inserts) = maxSize this.
Proof.
  induction inserts as [|i inserts IH] using rev_ind; [done|].
  unfold insert_all in *. by rewrite foldl_snoc.
Qed.

(** After writing distinct keys into an empty cache, the cache holds the last
    [maxSize] of them, in the order they were written. *)
Lemma insert_all_keys this inserts :
  dataCache this = [] → 1 ≤ maxSize this → NoDup (inserted_keys inserts) →
  Map_keys (dataCache (insert_all this inserts))
  = drop (length inserts - maxSize this) (inserted_keys inserts).
Proof.
  intros Hempty Hcap. induction inserts as [|[[now key] data] inserts IH] using rev_ind.
  - intros _. simpl. by rewrite Hempty.
  - unfold inserted_keys. rewrite fmap_app. simpl. fold (inserted_keys inserts).
    rewrite NoDup_app. intros (Hnd & Hnotin & _). specialize (IH Hnd).
    assert (key ∉ inserted_keys inserts) as Hkey.
    { intros Hin. apply (Hnotin _ Hin). by apply list_elem_of_singleton. }
    assert (length (inserted_keys inserts) = length inserts) as Hlen
      by apply length_fmap.
    assert (Map_size (dataCache (insert_all this inserts))
            = length inserts - (length inserts - maxSize this)) as Hsize.
    { unfold Map_size. rewrite <-(length_fmap fst). fold (Map_keys (dataCache (insert_all this inserts))).
      rewrite IH, length_drop. lia. }
    assert (insert_all this (inserts ++ [(now, key, data)])
            = _setToDataCache now key data (insert_all this inserts)) as ->
      by (unfold insert_all; by rewrite foldl_snoc).
    rewrite _setToDataCache_keys_absent.
    2:{ rewrite IH. intros Hin. apply Hkey. by eapply subseteq_drop. }
    rewrite insert_all_maxSize, IH, Hsize, length_app. simpl.
    destruct (Nat.leb_spec (maxSize this) (length inserts - (length inserts - maxSize this))).
    + rewrite tail_drop.
      replace (length inserts + 1 - maxSize this) with (S (length inserts - maxSize this)) by lia.
      rewrite drop_app_le; [done | lia].
    + replace (length inserts - maxSize this) with 0 by lia.
      replace (length inserts + 1 - maxSize this) with 0 by lia.
      by rewrite !drop_0.
Qed.

(** The two options of the manager never change. *)
Lemma options_step rt e :
  maxSize (manager (step rt e).2) = maxSize (manager rt) ∧
  cacheDuration (manager (step rt e).2) = cacheDuration (manager rt).
Proof.
  destruct e as [now key|now p outcome]; simpl.
  - pose proof (fetch_eq now key rt) as Heq. destruct (fetch now key rt) as [r rt'].
    simpl in *. destruct (truthy _).
    + by injection Heq as _ ->.
    + destruct (pendingRequests (manager rt) !! key); by injection Heq as _ ->.
  - unfold settle. destruct (inflight rt !! p); [|done]. by destruct outcome.
Qed.

Lemma options_run rt es :
  maxSize (manager (run rt es).2) = maxSize (manager rt) ∧
  cacheDuration (manager (run rt es).2) = cacheDuration (manager rt).
Proof.
  revert rt. induction es as [|e es IH]; intros rt; [done|].
  rewrite run_cons. simpl. destruct (IH (step rt e).2) as [-> ->]. apply options_step.
Qed.

(** Into an empty cache.  After writing more than [maxSize] distinct keys into
    an empty cache, with no reads in between, the cache holds exactly
    [maxSize] entries: the keys written last, in the order they were written.
    And in every state the program reaches the data cache is within the
    configured capacity, which is 1000 when no option is given. *)
Theorem capacity_keeps_latest (this : RequestManager)
    (inserts : list (Z * string * JSON)) :
  dataCache this = [] →
  1 ≤ maxSize this →
  NoDup (inserted_keys inserts) →
  maxSize this < length inserts →
  Map_size (dataCache (insert_all this inserts)) = maxSize this ∧
  Map_keys (dataCache (insert_all this inserts))
  = drop (length inserts - maxSize this) (inserted_keys inserts) ∧
  (∀ options history,
     let rt := (run (boot options) history).2 in
     Map_size (dataCache (manager rt)) ≤ maxSize (manager rt) ∧
     maxSize (manager rt) = maxSize (new_RequestManager options)) ∧
  maxSize (new_RequestManager (mkOptions None None)) = 1000.
Proof.
  intros Hempty Hcap Hnd Hmore.
  pose proof (insert_all_keys this inserts Hempty Hcap Hnd) as Hkeys.
  split; [|split; [done|split; [|done]]].
  - unfold Map_size. rewrite <-(length_fmap fst).
    fold (Map_keys (dataCache (insert_all this inserts))).
    rewrite Hkeys, length_drop. unfold inserted_keys. rewrite length_fmap. lia.
  - intros options history rt. split.
    + apply (inv_size rt), Inv_reachable.
    + exact (proj1 (options_run (boot options) history)).
Qed.

Lemma capacity_keeps_latest_witness :
  let this := new_RequestManager (mkOptions None (Some 2)) in
  let inserts := [(0%Z, "a", JNum 1); (1%Z, "b", JNum 2); (2%Z, "c", JNum 3)] in
  Map_keys (dataCache (insert_all this inserts)) = ["b"; "c"].
Proof.
  destruct (capacity_keeps_latest (new_RequestManager (mkOptions None (Some 2)))
              [(0%Z, "a", JNum 1); (1%Z, "b", JNum 2); (2%Z, "c", JNum 3)])
    as (_ & H & _); [reflexivity | simpl; lia | compute_done | simpl; lia |].
  exact H.
Defined.



(** C6.  With a capacity of 2 and an empty cache: write [A], write [B], read
    [A] before it expires, write a new key [C].  The read returns what was
    written for [A] and makes [B] the oldest entry, so the last write evicts
    [B] and leaves exactly [A] and [C].  At the level of [fetch], the scenario
    ends with the cache holding [a] with 1 and [c] with 3, the second call for
    [a] having been answered from the cache. *)
Theorem lru_touch_evicts_untouched (this : RequestManager) (A B C : string)
    (vA vB vC : JSON) (t1 t2 t3 t4 : Z) :
  let this1 := _setToDataCache t1 A vA this in
  let this2 := _setToDataCache t2 B vB this1 in
  let this3 := (_getFromDataCache t3 A this2).2 in
  let this4 := _setToDataCache t4 C vC this3 in
  dataCache this = [] →
  maxSize this = 2 →
  A ≠ B → C ≠ A → C ≠ B →
  (t3 ≤ t1 + cacheDuration this)%Z →
  (_getFromDataCache t3 A this2).1 = vA ∧
  dataCache this3 = [(B, mkItem vB (t2 + cacheDuration this));
                     (A, mkItem vA (t1 + cacheDuration this))] ∧
  dataCache this4 = [(A, mkItem vA (t1 + cacheDuration this));
                     (C, mkItem vC (t4 + cacheDuration this))] ∧
  (run (boot (mkOptions (Some 1000%Z) (Some 2))) scenario).1
  = [("a", Pending 0); ("b", Pending 1); ("a", Cached (JNum 1)); ("c", Pending 2)] ∧
  dataCache (manager (run (boot (mkOptions (Some 1000%Z) (Some 2))) scenario).2)
  = [("a", mkItem (JNum 1) 1010); ("c", mkItem (JNum 3) 1060)].
Proof.
  intros this1 this2 this3 this4 Hempty Hcap HAB HCA HCB Hnow.
  assert (dataCache this2 = [(A, mkItem vA (t1 + cacheDuration this));
                             (B, mkItem vB (t2 + cacheDuration this))]) as Hcache2.
  { unfold this2, this1, _setToDataCache. simpl. rewrite Hempty, Hcap. simpl.
    by destruct (decide (A = B)). }
  assert (_getFromDataCache t3 A this2
          = (vA, set_dataCache [(B, mkItem vB (t2 + cacheDuration this));
                                (A, mkItem vA (t1 + cacheDuration this))] this2)) as Hread.
  { rewrite _getFromDataCache_getCache, Hcache2.
    rewrite (getCache_hit t3 A _ (mkItem vA (t1 + cacheDuration this))).
    - simpl. by destruct (decide (A = A)).
    - apply NoDup_cons. split; [|apply NoDup_singleton].
      intros Hin. by apply list_elem_of_singleton in Hin.
    - simpl. by destruct (decide (A = A)).
    - done. }
  split; [by rewrite Hread|]. split; [unfold this3; by rewrite Hread|].
  split; [|split; reflexivity].
  unfold this4, this3. rewrite Hread. unfold _setToDataCache. simpl. rewrite Hcap. simpl.
  rewrite Map_delete_first_cons. simpl.
  destruct (decide (A = C)); [congruence | done].
Qed.

Lemma lru_touch_evicts_untouched_witness :
  let this := new_RequestManager (mkOptions (Some 1000%Z) (Some 2)) in
  let this2 := _setToDataCache 30 "b" (JNum 2) (_setToDataCache 10 "a" (JNum 1) this) in
  dataCache (_setToDataCache 60 "c" (JNum 3) (_getFromDataCache 40 "a" this2).2)
  = [("a", mkItem (JNum 1) 1010); ("c", mkItem (JNum 3) 1060)].
Proof.
  destruct (lru_touch_evicts_untouched (new_RequestManager (mkOptions (Some 1000%Z) (Some 2)))
              "a" "b" "c" (JNum 1) (JNum 2) (JNum 3) 10 30 40 60)
    as (_ & _ & H & _); [reflexivity | reflexivity | done | done | done | simpl; lia |].
  exact H.
Defined.

(** ** Writing a key that is already there *)

(** [setCache], the write with the presence check, on a key that is present,
    in a cache within its capacity: the entry is replaced, it becomes the
    most recent one, and no other entry leaves. *)
Lemma setCache_present now key data cache item :
  Map_wf cache → Map_size cache ≤ MAX_CACHE_SIZE → Map_get key cache = Some item →
  setCache now key data cache
  = Map_delete key cache ++ [(key, mkItem data (now + CACHE_DURATION))].
Proof.
  intros Hwf Hsize Hget. unfold setCache, Map_has. rewrite Hget.
  apply Map_size_delete in Hget.
  destruct (Nat.leb_spec MAX_CACHE_SIZE (Map_size (Map_delete key cache))); [lia|].
  by rewrite Map_set_absent by by apply Map_get_delete_eq.
Qed.

(** [setCache] on a new key: the oldest entry leaves when the cache is full. *)
Lemma setCache_absent now key data cache :
  Map_get key cache = None →
  setCache now key data cache
  = (if MAX_CACHE_SIZE <=? Map_size cache then Map_delete_first cache else cache)
    ++ [(key, mkItem data (now + CACHE_DURATION))].
Proof.
  intros Hget. unfold setCache, Map_has. rewrite Hget.
  rewrite Map_set_absent; [done|].
  destruct (MAX_CACHE_SIZE <=? Map_size cache); [|done].
  destruct (Map_get key (Map_delete_first cache)) as [item|] eqn:Hd; [|done].
  destruct cache as [|[k v] cache]; [done|]. rewrite Map_delete_first_cons in Hd.
  simpl in Hget. destruct (decide (k = key)); congruence.
Qed.

(** [_setToDataCache] on a key that is present and not the oldest, below the
    capacity: the entry keeps its place. *)
Lemma _setToDataCache_present now key data this item :
  Map_get key (dataCache this) = Some item →
  Map_size (dataCache this) < maxSize this →
  Map_keys (dataCache (_setToDataCache now key data this)) = Map_keys (dataCache this).
Proof.
  intros Hget Hsize. unfold _setToDataCache. simpl.
  destruct (Nat.leb_spec (maxSize this) (Map_size (dataCache this))); [lia|].
  by eapply Map_keys_set_present.
Qed.

(** C4, at the inputs where [_setToDataCache] departs from it.  The producer
    for [a] first resolves with [null], which is stored but never answers a
    call, so the next call for [a] invokes the producer again while [a] is
    still in the cache.
    - With the default capacity: [b] is fetched and stored meanwhile; when the
      second producer for [a] resolves, the entry of [a] is rewritten where it
      was, in the oldest position, behind [b].
    - With a capacity of 2: the cache holds [a] and [b] and is full; the call
      for [a] moves [a] to the end, and when its producer resolves [b] is
      evicted although [a] is only replaced.
    [setCache] on the same caches moves [a] to the end and keeps [b]. *)
Theorem setToDataCache_present_key_diverges :
  let replaced_in_place :=
    [ CallFetch 0 "a"; Settle 1 0 (Resolved JNull);
      CallFetch 2 "a"; CallFetch 3 "b"; Settle 4 2 (Resolved (JNum 2)) ] in
  let rt := (run (boot (mkOptions None None)) replaced_in_place).2 in
  let full :=
    [ CallFetch 0 "a"; Settle 1 0 (Resolved JNull);
      CallFetch 2 "b"; Settle 3 1 (Resolved (JNum 2)); CallFetch 4 "a" ] in
  let rt2 := (run (boot (mkOptions None (Some 2))) full).2 in
  dataCache (manager rt) = [("a", mkItem JNull 600001); ("b", mkItem (JNum 2) 600004)] ∧
  inflight rt !! 1 = Some "a" ∧
  dataCache (manager (settle 5 1 (Resolved (JNum 1)) rt))
  = [("a", mkItem (JNum 1) 600005); ("b", mkItem (JNum 2) 600004)] ∧
  setCache 5 "a" (JNum 1) (dataCache (manager rt))
  = [("b", mkItem (JNum 2) 600004); ("a", mkItem (JNum 1) 600005)] ∧
  dataCache (manager rt2) = [("b", mkItem (JNum 2) 600003); ("a", mkItem JNull 600001)] ∧
  inflight rt2 !! 2 = Some "a" ∧
  dataCache (manager (settle 5 2 (Resolved (JNum 1)) rt2))
  = [("a", mkItem (JNum 1) 600005)] ∧
  setCache 5 "a" (JNum 1) (dataCache (manager rt2))
  = [("b", mkItem (JNum 2) 600003); ("a", mkItem (JNum 1) 600005)].
Proof. repeat split; vm_compute; reflexivity. Qed.

(** * Further properties of the code *)

(** ** [src/api/tmdb.js]: more on the data cache and on [fetch] *)

Lemma Map_get_snoc {V : Type} (k key : string) (v : V) (m : list (string * V)) :
  Map_get k (m ++ [(key, v)])
  = match Map_get k m with
    | Some x => Some x
    | None => if decide (key = k) then Some v else None
    end.
Proof.
  induction m as [|[k0 v0] m IH]; simpl; [done|].
  by destruct (decide (k0 = k)).
Qed.

Lemma Map_delete_first_drop {V : Type} (m : list (string * V)) :
  Map_delete_first m = drop 1 m.
Proof. destruct m as [|[k v] m]; [done|]. by rewrite Map_delete_first_cons. Qed.


(** X8.  [_setToDataCache] on a key that is not in the cache: the oldest entry
    is dropped when the cache holds [maxSize] entries or more, the new entry
    goes to the end with the expiry [now + cacheDuration], and every other key
    that was not dropped keeps its entry. *)
Theorem setToDataCache_new_key (now : Z) (key : string) (data : JSON)
    (this : RequestManager) :
  Map_wf (dataCache this) →
  Map_get key (dataCache this) = None →
  dataCache (_setToDataCache now key data this)
  = (if bool_decide (maxSize this ≤ Map_size (dataCache this))
     then drop 1 (dataCache this) else dataCache this)
    ++ [(key, mkItem data (now + cacheDuration this))] ∧
  (∀ k, k ≠ key →
     Map_get k (dataCache (_setToDataCache now key data this))
     = if bool_decide (maxSize this ≤ Map_size (dataCache this) ∧
                       Map_first_key (dataCache this) = Some k)
       then None else Map_get k (dataCache this)).
Proof.
  intros Hwf Hget.
  assert (dataCache (_setToDataCache now key data this)
          = (if bool_decide (maxSize this ≤ Map_size (dataCache this))
             then drop 1 (dataCache this) else dataCache this)
            ++ [(key, mkItem data (now + cacheDuration this))]) as Heq.
  { unfold _setToDataCache. simpl. rewrite Map_delete_first_drop.
    destruct (Nat.leb_spec (maxSize this) (Map_size (dataCache this))).
    - rewrite bool_decide_eq_true_2 by done. apply Map_set_absent.
      destruct (dataCache this) as [|[k0 v0] cache]; [done|]. simpl in *.
      rewrite drop_0. by destruct (decide (k0 = key)).
    - rewrite bool_decide_eq_false_2 by lia. by apply Map_set_absent. }
  split; [done|]. intros k Hk. rewrite Heq, Map_get_snoc.
  destruct (decide (maxSize this ≤ Map_size (dataCache this))) as [Hfull|Hroom].
  - rewrite bool_decide_eq_true_2 by done.
    destruct (dataCache this) as [|[k0 v0] cache]; simpl.
    + rewrite bool_decide_eq_false_2 by (intros [_ [=]]).
      destruct (decide (key = k)); congruence.
    + rewrite drop_0. apply NoDup_cons in Hwf as [Hnotin _]. simpl in Hnotin.
      destruct (decide (k0 = k)) as [->|Hne].
      * rewrite bool_decide_eq_true_2 by done.
        apply (Map_get_None k cache) in Hnotin. rewrite Hnotin.
        destruct (decide (key = k)); congruence.
      * rewrite bool_decide_eq_false_2 by (intros [_ [= ?]]; done).
        destruct (Map_get k cache); [done|]. destruct (decide (key = k)); congruence.
  - rewrite !bool_decide_eq_false_2 by tauto.
    destruct (Map_get k (dataCache this)); [done|]. destruct (decide (key = k)); congruence.
Qed.

Lemma setToDataCache_new_key_witness :
  let this := {| cacheDuration := 1000; maxSize := 2;
                 dataCache := [("a", mkItem (JNum 1) 1000); ("b", mkItem (JNum 2) 1500)];
                 pendingRequests := ∅ |} in
  dataCache (_setToDataCache 700 "c" (JNum 3) this)
  = [("b", mkItem (JNum 2) 1500); ("c", mkItem (JNum 3) 1700)].
Proof.
  intros this.
  destruct (setToDataCache_new_key 700 "c" (JNum 3) this) as [H _];
    [compute_done | reflexivity |].
  exact H.
Defined.

(** X9.  [fetch] on a key whose entry is past its expiry never answers from the
    cache, even when the stored value is truthy: the entry is removed, and the
    call joins the pending promise for the key or, when there is none, invokes
    the producer. *)
Theorem fetch_expired_goes_to_network (rt : Runtime) (now : Z) (key : string)
    (item : Item) :
  Map_get key (dataCache (manager rt)) = Some item →
  (expiry item < now)%Z →
  (fetch now key rt).1
  = Pending (default (fresh rt) (pendingRequests (manager rt) !! key)) ∧
  dataCache (manager (fetch now key rt).2) = Map_delete key (dataCache (manager rt)) ∧
  (pendingRequests (manager rt) !! key = None →
     invoked key (fetch now key rt).2 = S (invoked key rt)).
Proof.
  intros Hget Hnow.
  pose proof (getCache_expired now key _ item Hget Hnow) as Hexp.
  split; [|split].
  - rewrite fetch_eq, Hexp. simpl. by destruct (pendingRequests (manager rt) !! key).
  - rewrite fetch_eq, Hexp. simpl. by destruct (pendingRequests (manager rt) !! key).
  - intros Hnone. apply fetch_starts; [|done].
    by rewrite _getFromDataCache_getCache, Hexp.
Qed.

Lemma fetch_expired_goes_to_network_witness :
  let rt := (run (boot (mkOptions (Some 1000%Z) None))
               [CallFetch 0 "/3/movie/550"; Settle 1 0 (Resolved (JNum 1))]).2 in
  (fetch 1002 "/3/movie/550" rt).1 = Pending 1 ∧
  dataCache (manager (fetch 1002 "/3/movie/550" rt).2) = [].
Proof.
  intros rt.
  destruct (fetch_expired_goes_to_network rt 1002 "/3/movie/550" (mkItem (JNum 1) 1001))
    as (H1 & H2 & _); [reflexivity | simpl; lia |].
  split; [exact H1 | exact H2].
Defined.

(** ** [src/api/tmdb.js]: the promises handed out by [fetch] *)

Lemma Ledger_boot options : Ledger (boot options).
Proof. split; simpl; [done | done | lia]. Qed.

Lemma Ledger_fetch now key rt : Ledger rt → Ledger (fetch now key rt).2.
Proof.
  intros [Hfresh Hin Hall]. rewrite fetch_eq. simpl.
  destruct (truthy _); [done|].
  destruct (pendingRequests (manager rt) !! key); [done|]. split; simpl.
  - by rewrite Hfresh.
  - intros p k. rewrite lookup_insert. destruct (decide (fresh rt = p)) as [<-|Hp].
    + intros [= <-]. rewrite lookup_app_r by (rewrite length_rev; lia).
      by rewrite length_rev, Hfresh, Nat.sub_diag.
    + intros Hp'. apply lookup_app_l_Some. by apply Hin.
  - intros p Hp. destruct (decide (fresh rt = p)) as [<-|Hne].
    + left. rewrite lookup_insert_eq. by eexists.
    + rewrite lookup_insert_ne by done. apply Hall. lia.
Qed.

Lemma Ledger_settle now q outcome rt : Ledger rt → Ledger (settle now q outcome rt).
Proof.
  intros [Hfresh Hin Hall]. unfold settle.
  destruct (inflight rt !! q) as [key|] eqn:Hq; [|done]. split; simpl; [done| |].
  - intros p k. rewrite lookup_delete. destruct (decide (q = p)); [done | apply Hin].
  - intros p Hp. rewrite lookup_delete, lookup_insert.
    destruct (decide (q = p)); [right; by eexists | by apply Hall].
Qed.

Lemma Ledger_step rt e : Ledger rt → Ledger (step rt e).2.
Proof.
  intros HL. destruct e as [now key|now q outcome]; simpl.
  - pose proof (Ledger_fetch now key rt HL). by destruct (fetch now key rt).
  - by apply Ledger_settle.
Qed.

(** The log of invocations only grows, at its recent end. *)
Lemma invocations_step rt e :
  ∃ new, invocations (step rt e).2 = new ++ invocations rt.
Proof.
  destruct e as [now key|now q outcome]; simpl.
  - pose proof (fetch_eq now key rt) as Heq. destruct (fetch now key rt) as [r rt'].
    simpl in *. destruct (truthy _).
    + injection Heq as _ ->. by exists [].
    + destruct (pendingRequests (manager rt) !! key); injection Heq as _ ->;
        simpl; [by exists [] | by exists [key]].
  - exists []. unfold settle. by destruct (inflight rt !! q).
Qed.

Lemma key_of_step rt e p k :
  rev (invocations rt) !! p = Some k → rev (invocations (step rt e).2) !! p = Some k.
Proof.
  intros Hp. destruct (invocations_step rt e) as [new ->].
  rewrite rev_app_distr. by apply lookup_app_l_Some.
Qed.

Lemma key_of_run rt es p k :
  rev (invocations rt) !! p = Some k → rev (invocations (run rt es).2) !! p = Some k.
Proof.
  revert rt. induction es as [|e es IH]; intros rt Hp; [done|].
  rewrite run_cons. simpl. by apply IH, key_of_step.
Qed.

(** The promise a call is handed belongs to the key of the call. *)
Lemma answer_key_step rt e k p :
  Inv rt → Ledger rt → (step rt e).1 = Some (k, Pending p) →
  rev (invocations (step rt e).2) !! p = Some k.
Proof.
  intros HI HL. destruct e as [now key|now q outcome]; simpl; [|done].
  pose proof (fetch_eq now key rt) as Heq. destruct (fetch now key rt) as [r rt'].
  simpl in *. destruct (truthy _).
  - injection Heq as -> ->. done.
  - destruct (pendingRequests (manager rt) !! key) as [q|] eqn:Hkey;
      injection Heq as -> ->; intros [= <- <-]; simpl.
    + apply (ledger_inflight rt HL). by apply (inv_pending rt HI).
    + rewrite lookup_app_r by (rewrite length_rev, (ledger_fresh rt HL); lia).
      by rewrite length_rev, (ledger_fresh rt HL), Nat.sub_diag.
Qed.

Lemma answer_key_run rt es k p :
  Inv rt → Ledger rt → (k, Pending p) ∈ (run rt es).1 →
  rev (invocations (run rt es).2) !! p = Some k.
Proof.
  revert rt. induction es as [|e es IH]; intros rt HI HL Hans.
  - by apply elem_of_nil in Hans.
  - rewrite run_cons in *. simpl in *.
    pose proof (Inv_step rt e HI) as HI1. pose proof (Ledger_step rt e HL) as HL1.
    destruct (step rt e).1 as [[k0 a0]|] eqn:Hst; [|by apply IH].
    apply elem_of_cons in Hans as [[= <- <-]|Hans]; [|by apply IH].
    apply key_of_run. by apply answer_key_step.
Qed.

Lemma Ledger_run rt es : Ledger rt → Ledger (run rt es).2.
Proof.
  revert rt. induction es as [|e es IH]; intros rt HL; [done|].
  rewrite run_cons. simpl. by apply IH, Ledger_step.
Qed.

(** X11.  A promise is only ever handed to calls for one key: two calls that
    are handed the same promise, at any two points of a run, are calls for
    the same key, so no caller is given the result of another URL. *)
Theorem promise_serves_one_key (options : Options) (history : list Event)
    (key1 key2 : string) (p : Promise) :
  (key1, Pending p) ∈ (run (boot options) history).1 →
  (key2, Pending p) ∈ (run (boot options) history).1 →
  key1 = key2.
Proof.
  intros H1 H2.
  apply answer_key_run in H1; [|apply Inv_boot | apply Ledger_boot].
  apply answer_key_run in H2; [|apply Inv_boot | apply Ledger_boot].
  congruence.
Qed.

Lemma promise_serves_one_key_witness :
  ("/3/tv/1", Pending 0)
  ∉ (run (boot (mkOptions None None))
       [CallFetch 0 "/3/movie/550"; CallFetch 1 "/3/movie/550"; CallFetch 2 "/3/tv/1"]).1.
Proof.
  intros Hin.
  pose proof (promise_serves_one_key (mkOptions None None)
                [CallFetch 0 "/3/movie/550"; CallFetch 1 "/3/movie/550"; CallFetch 2 "/3/tv/1"]
                "/3/tv/1" "/3/movie/550" 0 Hin) as Heq.
  assert ("/3/tv/1" = "/3/movie/550") as Habs
    by (apply Heq; vm_compute; apply list_elem_of_here).
  discriminate Habs.
Defined.

(** X12.  No caller is left with a promise nobody will settle: at the end of
    any run, the promise handed to a call is either still in flight, for the
    key of that call and registered under it, or it has settled. *)
Theorem answer_is_backed (options : Options) (history : list Event)
    (key : string) (p : Promise) :
  let rt := (run (boot options) history).2 in
  (key, Pending p) ∈ (run (boot options) history).1 →
  (inflight rt !! p = Some key ∧ pendingRequests (manager rt) !! key = Some p)
  ∨ is_Some (settled rt !! p).
Proof.
  intros rt Hans.
  pose proof (Inv_reachable options history) as HI. fold rt in HI.
  pose proof (Ledger_run (boot options) history (Ledger_boot options)) as HL. fold rt in HL.
  apply answer_key_run in Hans; [|apply Inv_boot | apply Ledger_boot]. fold rt in Hans.
  assert (p < fresh rt) as Hp.
  { apply lookup_lt_Some in Hans. by rewrite length_rev, (ledger_fresh rt HL) in Hans. }
  destruct (ledger_all rt HL p Hp) as [[k Hin]|Hset]; [|by right].
  left. pose proof (ledger_inflight rt HL p k Hin) as Hk.
  assert (k = key) as -> by congruence. split; [done | by apply (inv_pending rt HI)].
Qed.

Lemma answer_is_backed_witness :
  let history := [CallFetch 0 "/3/movie/550"; Settle 4 0 (Rejected "fetch failed")] in
  is_Some (settled (run (boot (mkOptions None None)) history).2 !! 0).
Proof.
  intros history.
  destruct (answer_is_backed (mkOptions None None) history "/3/movie/550" 0)
    as [[Hin _]|H]; [vm_compute; apply list_elem_of_here | | exact H].
  vm_compute in Hin. discriminate Hin.
Defined.

(** X13.  While a producer is in flight for a key, the cache holds nothing
    under that key that [fetch] would return; and the data cache has one
    entry per key.  This holds in every state the program reaches. *)
Theorem pending_key_is_not_cached (options : Options) (history : list Event)
    (key : string) (p : Promise) (item : Item) :
  let rt := (run (boot options) history).2 in
  Map_wf (dataCache (manager rt)) ∧
  (pendingRequests (manager rt) !! key = Some p →
   Map_get key (dataCache (manager rt)) = Some item →
   truthy (data item) = false).
Proof.
  intros rt. pose proof (Inv_reachable options history) as HI. fold rt in HI.
  split; [apply (inv_wf rt HI) | apply (inv_falsy rt HI)].
Qed.

Lemma pending_key_is_not_cached_witness :
  let history := [CallFetch 0 "/3/movie/550"; Settle 1 0 (Resolved (JBool false));
                  CallFetch 2 "/3/movie/550"] in
  let rt := (run (boot (mkOptions None None)) history).2 in
  Map_get "/3/movie/550" (dataCache (manager rt)) = Some (mkItem (JBool false) 600001) ∧
  truthy (JBool false) = false.
Proof.
  intros history rt. split; [reflexivity|].
  destruct (pending_key_is_not_cached (mkOptions None None) history "/3/movie/550" 1
              (mkItem (JBool false) 600001)) as [_ H].
  apply H; reflexivity.
Defined.

Lemma invoked_step key rt e :
  invoked key (step rt e).2 ≤ invoked key rt + (if is_call key e then 1 else 0).
Proof.
  destruct e as [now k|now q outcome]; simpl.
  - pose proof (fetch_eq now k rt) as Heq. destruct (fetch now k rt) as [r rt'].
    simpl in *. destruct (truthy _).
    + injection Heq as _ ->. unfold invoked. simpl. lia.
    + destruct (pendingRequests (manager rt) !! k); injection Heq as _ ->.
      * unfold invoked. simpl. lia.
      * rewrite invoked_cons. destruct (decide (k = key)) as [->|Hne].
        -- rewrite bool_decide_eq_true_2 by done. lia.
        -- lia.
  - unfold settle. destruct (inflight rt !! q); unfold invoked; simpl; lia.
Qed.

(** X14.  The producer is invoked for a key at most as often as [fetch] is
    called for that key, settlements invoke nothing, and each invocation
    creates exactly one promise. *)
Theorem invocations_bounded_by_calls (options : Options) (history : list Event)
    (key : string) :
  let rt := (run (boot options) history).2 in
  invoked key rt ≤ calls key history ∧
  length (invocations rt) = fresh rt ∧
  (∀ now p outcome, invocations (settle now p outcome rt) = invocations rt).
Proof.
  intros rt. split; [|split].
  - assert (∀ rt0 es, invoked key (run rt0 es).2 ≤ invoked key rt0 + calls key es) as Hrun.
    { intros rt0 es. revert rt0. induction es as [|e es IH]; intros rt0; [simpl; lia|].
      rewrite run_cons. simpl. specialize (IH (step rt0 e).2).
      pose proof (invoked_step key rt0 e) as Hstep.
      unfold calls in *. rewrite filter_cons.
      destruct (is_call key e); simpl.
      - destruct (decide (true = true)); [simpl; lia | done].
      - destruct (decide (false = true)); [done | lia]. }
    apply (Hrun (boot options) history).
  - apply (ledger_fresh rt), Ledger_run, Ledger_boot.
  - intros now p outcome. unfold settle. by destruct (inflight rt !! p).
Qed.

(** ** [src/api/tmdb.js]: the handlers *)

Lemma prefix_app (s r : string) : String.prefix s (s +:+ r) = true.
Proof.
  induction s as [|a s IH]; simpl; [by destruct r|].
  by destruct (Ascii.ascii_dec a a).
Qed.

Lemma includes_prefix (s sub : string) : String.prefix sub s = true → includes s sub = true.
Proof. intros Hpre. destruct s; simpl in *; by rewrite Hpre. Qed.

Lemma includes_app (s r : string) : includes (s +:+ r) s = true.
Proof. apply includes_prefix, prefix_app. Qed.

(** X15.  An upstream reply with a status outside 200..299 whose body can be
    read, as the producers and the [catch] of the two handlers treat it.
    Second part of [tmdb.js]: the producer rejects with
    [TMDB API Error <status>: <body>] and the handler answers 502 with that
    error, whatever the status and the body.  First part, the branch of the
    API requests only (lines 113 to 142): the producer rejects with the body,
    or with the status text when the body is empty, and the handler answers
    500 with [Proxy Error] and that message as details.  The branch of the
    image requests (lines 78 to 111, for a URL that starts with [/t/p/] or
    [/t/original/]) is not modelled; it passes the upstream status on. *)
Theorem upstream_error_response (status : nat) (statusText errorText : string)
    (json : JSON + string) :
  ok status = false →
  TMDB_finish (performNetworkRequest (Replied status statusText (inl errorText) json))
  = mkResponse 502 TMDB_cors
      (Json (JObj [("error",
                    JStr ("TMDB API Error " +:+ pretty status +:+ ": " +:+ errorText))])) ∧
  proxy_finish (proxy_fetcher (Replied status statusText (inl errorText) json))
  = mkResponse 500 proxy_cors
      (Json (JObj [("error", JStr "Proxy Error");
                   ("details", JStr (if String.eqb errorText "" then statusText
                                     else errorText))])).
Proof.
  intros Hok. unfold performNetworkRequest, proxy_fetcher. rewrite Hok.
  split; [|done]. unfold TMDB_finish.
  pose proof (includes_app "TMDB API Error" (" " +:+ pretty status +:+ ": " +:+ errorText))
    as Hinc.
  change ("TMDB API Error" +:+ (" " +:+ pretty status +:+ ": " +:+ errorText))
    with ("TMDB API Error " +:+ pretty status +:+ ": " +:+ errorText) in Hinc.
  by rewrite Hinc.
Qed.

Lemma upstream_error_response_witness :
  TMDB_finish (performNetworkRequest (Replied 404 "Not Found" (inl "{}") (inr "")))
  = mkResponse 502 TMDB_cors (Json (JObj [("error", JStr "TMDB API Error 404: {}")])).
Proof.
  destruct (upstream_error_response 404 "Not Found" "{}" (inr "")) as [H _];
    [reflexivity|].
  exact H.
Defined.

Lemma TMDB_start_fetch now req rt :
  method req ≠ "OPTIONS" →
  TMDB_start now req rt = (inr (fetch now (url req) rt).1, (fetch now (url req) rt).2).
Proof.
  intros Hmethod. unfold TMDB_start. destruct (decide (method req = "OPTIONS")); [done|].
  by destruct (fetch now (url req) rt).
Qed.

(** X16.  Coalesced handlers answer alike.  A request that misses while
    nothing is pending for its URL starts the one upstream call; whatever that
    call comes to, every handler that was handed the pending promise in the
    meantime sends the response the first one sends. *)
Theorem coalesced_handlers_answer_alike (options : Options) (history : list Event)
    (now : Z) (req : Request) (wave : list Event) (now' : Z) (up : Upstream) :
  let rt0 := (run (boot options) history).2 in
  let p := fresh rt0 in
  let rt1 := (TMDB_start now req rt0).2 in
  let rt2 := (run rt1 wave).2 in
  let rt3 := settle now' p (performNetworkRequest up) rt2 in
  method req ≠ "OPTIONS" →
  truthy (_getFromDataCache now (url req) (manager rt0)).1 = false →
  pendingRequests (manager rt0) !! url req = None →
  Forall (λ e, settles p e = false) wave →
  (TMDB_start now req rt0).1 = inr (Pending p) ∧
  invoked (url req) rt3 = S (invoked (url req) rt0) ∧
  (∀ a, a = Pending p ∨ (url req, a) ∈ (run rt1 wave).1 →
     TMDB_finish <$> received a rt3 = Some (TMDB_finish (performNetworkRequest up))).
Proof.
  intros rt0 p rt1 rt2 rt3 Hmethod Hmiss Hnone Hwave.
  pose proof (Inv_reachable options history) as HI0. fold rt0 in HI0.
  subst rt3 rt2 rt1. rewrite (TMDB_start_fetch now req rt0 Hmethod). simpl.
  destruct (fetch_starts now (url req) rt0 Hmiss Hnone) as (Hans & Hkey1 & _ & Hinv1 & _).
  assert (Inv (fetch now (url req) rt0).2) as HI1 by by apply Inv_fetch.
  destruct (pending_run _ (url req) p wave HI1 Hkey1 Hwave) as (Hkey2 & Hinv2 & Hans2).
  set (rt2 := (run (fetch now (url req) rt0).2 wave).2) in *.
  set (rt3 := settle now' p (performNetworkRequest up) rt2).
  assert (Inv rt2) as HI2 by by apply Inv_run.
  assert (inflight rt2 !! p = Some (url req)) as Hin2 by by apply (inv_pending rt2 HI2).
  destruct (settle_inflight now' p (performNetworkRequest up) rt2 (url req) HI2 Hin2)
    as (_ & _ & Hset3 & Hinv3 & _).
  fold rt3 in Hset3, Hinv3.
  split; [by rewrite Hans|]. split; [unfold invoked in *; congruence|].
  intros a [->|Ha].
  - simpl. by rewrite Hset3.
  - rewrite (Hans2 a Ha). simpl. by rewrite Hset3.
Qed.

Lemma coalesced_handlers_answer_alike_witness :
  let req := mkRequest "GET" "/3/movie/550" None in
  let rt1 := (TMDB_start 0 req (boot (mkOptions None None))).2 in
  let wave := [CallFetch 1 "/3/movie/550"] in
  let rt3 := settle 9 0 (performNetworkRequest (FetchFailed "fetch failed")) (run rt1 wave).2 in
  TMDB_finish <$> received (Pending 0) rt3
  = Some (mkResponse 500 TMDB_cors (Json (JObj [("error", JStr "fetch failed")]))).
Proof.
  intros req rt1 wave rt3.
  destruct (coalesced_handlers_answer_alike (mkOptions None None) [] 0 req wave 9
              (FetchFailed "fetch failed")) as (_ & _ & H);
    [done | reflexivity | reflexivity | repeat constructor |].
  apply (H (Pending 0)). by left.
Defined.

(** X17.  The cache key is the URL alone.  When the cache holds a truthy,
    unexpired entry for the URL of a request, the handler answers 200 with the
    stored data whatever the method (other than [OPTIONS]) and whatever the
    [Authorization] header of the request, and no producer is invoked. *)
Theorem TMDB_start_answers_from_cache (rt : Runtime) (now : Z) (req : Request)
    (item : Item) :
  method req ≠ "OPTIONS" →
  Map_get (url req) (dataCache (manager rt)) = Some item →
  truthy (data item) = true →
  (now ≤ expiry item)%Z →
  (TMDB_start now req rt).1 = inr (Cached (data item)) ∧
  invocations (TMDB_start now req rt).2 = invocations rt ∧
  pendingRequests (manager (TMDB_start now req rt).2) = pendingRequests (manager rt) ∧
  TMDB_finish <$> received (Cached (data item)) (TMDB_start now req rt).2
  = Some (mkResponse 200 (TMDB_cors ++ [application_json]) (SendJSON (data item))).
Proof.
  intros Hmethod Hget Htruthy Hnow. rewrite (TMDB_start_fetch now req rt Hmethod). simpl.
  assert ((fetch now (url req) rt).1 = Cached (data item)) as Hhit.
  { apply fetch_Cached. split; [|done]. unfold getCache. rewrite Hget.
    by destruct (Z.ltb_spec (expiry item) now); [lia|]. }
  destruct (fetch_Cached_frame now (url req) rt (data item) Hhit) as (? & ? & _).
  by rewrite Hhit.
Qed.

Lemma TMDB_start_answers_from_cache_witness :
  let rt := (run (boot (mkOptions None None))
               [CallFetch 0 "/3/account"; Settle 1 0 (Resolved (JStr "alice"))]).2 in
  (TMDB_start 2 (mkRequest "POST" "/3/account" (Some "Bearer bob")) rt).1
  = inr (Cached (JStr "alice")).
Proof.
  intros rt.
  destruct (TMDB_start_answers_from_cache rt 2
              (mkRequest "POST" "/3/account" (Some "Bearer bob"))
              (mkItem (JStr "alice") 600001)) as (H & _);
    [done | reflexivity | reflexivity | simpl; lia |].
  exact H.
Defined.
